(** * Box covering workflow of the [boxes] tutorial notebook

    A shallow embedding of the code cells of
    [tutorial/boxing_tutorial.ipynb]: the log path helper [path_], the
    reader [read_max_connected_component], the algorithm registries
    [algs_lb] and [algs_rb] and the driver [boxing_all], followed by the
    properties the specification states about them. *)

From Stdlib Require Import String Ascii List Bool Arith ZArith Lia.
From Stdlib Require Import Permutation Sorted.
From Stdlib Require QArith.
Import ListNotations.

(* ===================================================================== *)
(** ** Python strings *)
(* ===================================================================== *)

(** A [str] is a [string] here: the names the notebook builds paths from
    (network and algorithm names) are ASCII, one character per byte. *)

Module PyStr.

Declare Scope pystr_scope.
Delimit Scope pystr_scope with py.

(** [a + b] on [str]; it groups to the left, as in Python. *)
Notation "a +s b" := (String.append a b)
  (at level 50, left associativity) : pystr_scope.

Local Open Scope string_scope.

(** [needle in hay] on [str]: [needle] starts at some position of [hay]. *)
Fixpoint contains (needle hay : string) : bool :=
  String.prefix needle hay
  || match hay with
     | EmptyString => false
     | String _ rest => contains needle rest
     end.

(** [s[-k:]] for [k > 0]: the last [k] characters, the whole string when
    it is shorter. *)
Definition last_chars (k : nat) (s : string) : string :=
  String.substring (String.length s - k) k s.

End PyStr.

(* ===================================================================== *)
(** ** The log path helper *)
(* ===================================================================== *)

Module Paths.
Import PyStr.
Local Open Scope string_scope.
Local Open Scope pystr_scope.

(** [def path_(net,alg=None,bench=False)]. *)
Definition path_ (net : string) (alg : option string) (bench : bool) : string :=
  match alg with
  | None =>
      if contains "grid" net then
        let p := "../../result_logs/grid2d/" +s last_chars 2 net +s "/" in
        p
      else "../../result_logs/" +s net +s "/"
  | Some alg =>
      if contains "grid" net then
        let p := "../../result_logs/grid2d/" +s last_chars 2 net +s "/"
                 +s net +s "_" +s alg in
        if bench then p +s "_benchmark.txt" else p +s ".txt"
      else
        if bench then
          "../../result_logs/" +s net +s "/" +s net +s "_" +s alg +s "_benchmark.txt"
        else
          "../../result_logs/" +s net +s "/" +s net +s "_" +s alg +s ".txt"
  end.

(** The convention as the specification words it:
    [{base}/{network}/{network}_{algorithm}.txt], with [_benchmark.txt]
    for the benchmark variant. *)
Definition convention_path (base network algorithm : string) (bench : bool) : string :=
  (base ++ "/" ++ network ++ "/" ++ network ++ "_" ++ algorithm
        ++ (if bench then "_benchmark.txt" else ".txt"))%string.

Definition result_logs : string := "../../result_logs".

End Paths.

(* ===================================================================== *)
(** ** Outcomes of Python calls *)
(* ===================================================================== *)

Module Py.

(** The exceptions the modelled code can raise. *)
Inductive exn : Type :=
| NetworkXPointlessConcept   (* nx.is_connected on the null graph *)
| ValueError                 (* max() of an empty sequence *)
| IndexError                 (* lb[-1] on an empty sequence *)
| KeyError.                  (* d[k] for a key that d lacks *)

(** A call returns a value, raises, or exhausts the fuel of a loop whose
    termination is a theorem rather than a syntactic fact. *)
Inductive outcome (A : Type) : Type :=
| Returns (a : A)
| Raises (e : exn)
| OutOfFuel.

Arguments Returns {A} a.
Arguments Raises {A} e.
Arguments OutOfFuel {A}.

Definition bind {A B : Type} (m : outcome A) (k : A -> outcome B) : outcome B :=
  match m with
  | Returns a => k a
  | Raises e => Raises e
  | OutOfFuel => OutOfFuel
  end.

Declare Scope outcome_scope.
Delimit Scope outcome_scope with outcome.
Notation "x <- m ;; k" := (bind m (fun x => k))
  (at level 61, m at next level, right associativity) : outcome_scope.

End Py.

(* ===================================================================== *)
(** ** Graphs, breadth-first search and connected components *)
(* ===================================================================== *)

Module Graphs.
Import Py.
Local Open Scope outcome_scope.

(** Nodes are numbered. *)
Abbreviation node := nat (only parsing).

(** An [nx.Graph]: the adjacency dict, node -> neighbours, in insertion
    order.  Python sets of nodes are lists here; only membership and
    the number of distinct members are ever observed. *)
Definition Graph : Type := list (node * list node).

Definition mem (v : node) (s : list node) : bool := existsb (Nat.eqb v) s.

(** [list(G)] *)
Definition nodes (g : Graph) : list node := map fst g.

(** [G.adj[v]] *)
Definition adj (g : Graph) (v : node) : list node :=
  match find (fun e => fst e =? v) g with
  | Some e => snd e
  | None => []
  end.

(** [G.add_node(v)] *)
Definition add_node (v : node) (g : Graph) : Graph :=
  if mem v (nodes g) then g else g ++ [(v, [])].

(** [G.adj[u][v] = {}] for a [u] already present. *)
Definition add_neighbour (u v : node) (g : Graph) : Graph :=
  map (fun e => if fst e =? u
                then (fst e, if mem v (snd e) then snd e else snd e ++ [v])
                else e) g.

(** [G.add_edge(u, v)] *)
Definition add_edge (u v : node) (g : Graph) : Graph :=
  add_neighbour v u (add_neighbour u v (add_node v (add_node u g))).

(** [G = nx.Graph(); G.add_edges_from(edges)] *)
Definition from_edges (edges : list (node * node)) : Graph :=
  fold_left (fun g e => add_edge (fst e) (snd e) g) edges [].

(** Body of the [for v in thislevel] loop of [_plain_bfs]:
    [if v not in seen: seen.add(v); nextlevel.update(G_adj[v])]. *)
Fixpoint visit_level (g : Graph) (thislevel seen nextlevel : list node)
  : list node * list node :=
  match thislevel with
  | [] => (seen, nextlevel)
  | v :: rest =>
      if mem v seen then visit_level g rest seen nextlevel
      else visit_level g rest (seen ++ [v]) (nextlevel ++ adj g v)
  end.

(** [while nextlevel: thislevel = nextlevel; nextlevel = set(); ...] *)
Fixpoint bfs_loop (fuel : nat) (g : Graph) (seen nextlevel : list node)
  : option (list node) :=
  match nextlevel with
  | [] => Some seen
  | _ :: _ =>
      match fuel with
      | 0 => None
      | S fuel' =>
          let '(seen', nextlevel') := visit_level g nextlevel seen [] in
          bfs_loop fuel' g seen' nextlevel'
      end
  end.

(** [_plain_bfs(G, source)]: the nodes reached from [source]. *)
Definition plain_bfs (g : Graph) (source : node) : option (list node) :=
  bfs_loop (S (length g)) g [] [source].

(** [nx.connected_components(G)]:
    [for v in G: if v not in seen: c = _plain_bfs(G, v); seen.update(c); yield c]. *)
Fixpoint components_loop (g : Graph) (vs seen : list node)
  : option (list (list node)) :=
  match vs with
  | [] => Some []
  | v :: rest =>
      if mem v seen then components_loop g rest seen
      else
        match plain_bfs g v with
        | None => None
        | Some c => option_map (cons c) (components_loop g rest (seen ++ c))
        end
  end.

Definition connected_components (g : Graph) : outcome (list (list node)) :=
  match components_loop g (nodes g) [] with
  | Some cs => Returns cs
  | None => OutOfFuel
  end.

(** [nx.is_connected(G)]: raises on the null graph, otherwise compares
    the size of the search from the first node with [len(G)]. *)
Definition is_connected (g : Graph) : outcome bool :=
  match nodes g with
  | [] => Raises NetworkXPointlessConcept
  | v0 :: _ =>
      match plain_bfs g v0 with
      | Some c => Returns (length c =? length g)
      | None => OutOfFuel
      end
  end.

(** [max(cs, key=len)]: the first element of maximal length. *)
Fixpoint max_len_from (best : list node) (cs : list (list node)) : list node :=
  match cs with
  | [] => best
  | c :: rest =>
      if length best <? length c then max_len_from c rest
      else max_len_from best rest
  end.

Definition max_key_len (cs : list (list node)) : outcome (list node) :=
  match cs with
  | [] => Raises ValueError
  | c :: rest => Returns (max_len_from c rest)
  end.

(** [G.subgraph(keep)]: the subgraph induced by [keep]. *)
Definition subgraph (g : Graph) (keep : list node) : Graph :=
  map (fun e => (fst e, filter (fun w => mem w keep) (snd e)))
      (filter (fun e => mem (fst e) keep) g).

(** One row of the distance cache: target -> distance. *)
Definition DistRow : Type := list (node * nat).
(** [dict(nx.all_pairs_shortest_path_length(G))]: source -> row. *)
Definition DistDict : Type := list (node * DistRow).

(** [v in seen] for the dict [seen] of [_single_shortest_path_length]. *)
Definition row_mem (v : node) (seen : DistRow) : bool :=
  existsb (fun e => fst e =? v) seen.

(** [for v in thislevel: if v not in seen: seen[v] = level;
    nextlevel.update(adj[v])]. *)
Fixpoint visit_level_length (g : Graph) (level : nat) (thislevel : list node)
  (seen : DistRow) (nextlevel : list node) : DistRow * list node :=
  match thislevel with
  | [] => (seen, nextlevel)
  | v :: rest =>
      if row_mem v seen then visit_level_length g level rest seen nextlevel
      else visit_level_length g level rest (seen ++ [(v, level)])
                              (nextlevel ++ adj g v)
  end.

(** [while nextlevel: ...; level += 1] (no cutoff). *)
Fixpoint length_loop (fuel : nat) (g : Graph) (level : nat) (seen : DistRow)
  (nextlevel : list node) : option DistRow :=
  match nextlevel with
  | [] => Some seen
  | _ :: _ =>
      match fuel with
      | 0 => None
      | S fuel' =>
          let '(seen', nextlevel') :=
            visit_level_length g level nextlevel seen [] in
          length_loop fuel' g (S level) seen' nextlevel'
      end
  end.

(** [dict(nx.single_source_shortest_path_length(G, source))] for a
    [source] of [G]. *)
Definition single_source_shortest_path_length (g : Graph) (source : node)
  : option DistRow :=
  length_loop (S (length g)) g 0 [] [source].

(** [for n in G: yield (n, length(G, n))], gathered by [dict]. *)
Fixpoint all_pairs_loop (g : Graph) (vs : list node) : option DistDict :=
  match vs with
  | [] => Some []
  | n :: rest =>
      match single_source_shortest_path_length g n with
      | None => None
      | Some row => option_map (cons (n, row)) (all_pairs_loop g rest)
      end
  end.

Definition all_pairs_shortest_path_length (g : Graph) : outcome DistDict :=
  match all_pairs_loop g (nodes g) with
  | Some d => Returns d
  | None => OutOfFuel
  end.

(** [row[v]] and [d[u][v]] as lookups that can miss. *)
Definition row_get (row : DistRow) (v : node) : option nat :=
  option_map snd (find (fun e => fst e =? v) row).
Definition dist_get (d : DistDict) (u v : node) : option nat :=
  match find (fun e => fst e =? u) d with
  | Some e => row_get (snd e) v
  | None => None
  end.

(** Modelled from the spec: the class [boxes.network] is not among the
    sources; the notebook reads and writes its attributes [graph] and
    [shortest_paths], and the specification says that the distance
    cache is [None] until computed. *)
Record Network : Type := {
  graph : Graph;
  shortest_paths : option DistDict
}.

Definition network (g : Graph) : Network :=
  {| graph := g; shortest_paths := None |}.

Section Reader.

(** [boxes.read_from_edgelist(path, header_length)], the edge list
    reader, is not among the sources; it is a parameter. *)
Variable read_from_edgelist : string -> nat -> Graph.

(** [def read_max_connected_component(path,header_length)]. *)
Definition read_max_connected_component (path : string) (header_length : nat)
  : outcome Network :=
  let graph := read_from_edgelist path header_length in
  connected <- is_connected graph ;;
  if negb connected then
    components <- connected_components graph ;;
    largest <- max_key_len components ;;
    let max_connected := subgraph graph largest in
    Returns (network max_connected)
  else
    Returns (network graph).

End Reader.

(** The properties of an [nx.Graph] that the searches rely on: every
    node has one adjacency entry, neighbours are nodes, and adjacency is
    symmetric. *)
Definition closed_graph (g : Graph) : Prop :=
  forall u v, In v (adj g u) -> In v (nodes g).
Definition symmetric_graph (g : Graph) : Prop :=
  forall u v, In v (adj g u) -> In u (adj g v).
Record well_formed (g : Graph) : Prop := {
  wf_nodup : NoDup (nodes g);
  wf_closed : closed_graph g;
  wf_symmetric : symmetric_graph g
}.

(** The same three properties as a check that can be run. *)
Fixpoint distinct (s : list node) : bool :=
  match s with
  | [] => true
  | x :: rest => negb (mem x rest) && distinct rest
  end.

Definition well_formedb (g : Graph) : bool :=
  distinct (nodes g)
  && forallb (fun e => forallb (fun v => mem v (nodes g)) (snd e)) g
  && forallb (fun e => forallb (fun v => mem (fst e) (adj g v)) (snd e)) g.

(** [u] and [v] are joined by a walk of [g]. *)
Inductive reach (g : Graph) : node -> node -> Prop :=
| reach_refl : forall v, In v (nodes g) -> reach g v v
| reach_step : forall u v w, reach g u v -> In w (adj g v) -> reach g u w.

(** [c] lists, without repetition, the connected component of some node. *)
Definition is_component (g : Graph) (c : list node) : Prop :=
  NoDup c /\ exists v, In v (nodes g) /\ forall w, In w c <-> reach g v w.

Definition connected (g : Graph) : Prop :=
  forall u v, In u (nodes g) -> In v (nodes g) -> reach g u v.

(** A walk of [n] edges from [u] to [v]. *)
Inductive walk (g : Graph) : node -> node -> nat -> Prop :=
| walk_here : forall v, In v (nodes g) -> walk g v v 0
| walk_step : forall u v w n,
    walk g u v n -> In w (adj g v) -> walk g u w (S n).

(** [x] is the distance from [u] to [v]: the length of a shortest walk. *)
Definition shortest (g : Graph) (u v : node) (x : nat) : Prop :=
  walk g u v x /\ forall n, walk g u v n -> x <= n.


(** The loop invariant of [_plain_bfs] started at [s]. *)
Record bfs_inv (g : Graph) (s : node) (seen next : list node) : Prop := {
  inv_nodup : NoDup seen;
  inv_seen_nodes : incl seen (nodes g);
  inv_reach : forall x, In x seen \/ In x next -> reach g s x;
  inv_frontier : forall v w, In v seen -> In w (adj g v) -> In w seen \/ In w next;
  inv_source : In s seen \/ In s next
}.

(** The loop invariant of [_single_shortest_path_length] started at [s],
    on entering the sweep of [level]: the nodes seen are those nearer
    than [level], each with its distance, and [next] holds the nodes at
    distance [level] among nodes that [level] edges reach. *)
Record levels_inv (g : Graph) (s : node) (level : nat) (seen : DistRow)
  (next : list node) : Prop := {
  lv_sound : forall k l, In (k, l) seen -> l < level /\ shortest g s k l;
  lv_complete : forall k n, walk g s k n -> n < level -> In k (map fst seen);
  lv_next_walk : forall k, In k next -> walk g s k level;
  lv_next_complete : forall k, shortest g s k level -> In k next
}.

End Graphs.

(* ===================================================================== *)
(** ** The algorithm registries *)
(* ===================================================================== *)

Module Registry.
Import Py.
Local Open Scope string_scope.

(** The covering procedures of the [boxes] package that the notebook
    registers; they are values here, their bodies are not among the
    sources. *)
Inductive Alg : Type :=
| cbb | greedy_coloring | merge_algorithm | obca | fuzzy
| mcwr | memb | random_sequential | remcc.

(** Keyword argument values: [True]/[False] and float literals, the
    latter as exact rationals (0.75, 0.5 and 0.25 are dyadic). *)
Inductive value : Type :=
| VBool (b : bool)
| VFloat (q : QArith_base.Q).

Definition Kwargs : Type := list (string * value).

(** [{'alg': ..., 'kwargs': {...}}] *)
Record entry : Type := { alg : Alg; kwargs : Kwargs }.

(** A dict from names to entries, in insertion order (the order in
    which [.keys()] iterates). *)
Definition registry : Type := list (string * entry).

Definition algs_lb : registry :=
  [ ("cbb",    {| alg := cbb;             kwargs := [("boxing", VBool true)] |});
    ("greedy", {| alg := greedy_coloring; kwargs := [("boxing", VBool true)] |});
    ("merge",  {| alg := merge_algorithm; kwargs := [("boxing", VBool true)] |});
    ("obca",   {| alg := obca;            kwargs := [("boxing", VBool true)] |});
    ("fuzzy",  {| alg := fuzzy;           kwargs := [("boxing", VBool true)] |}) ].

Definition algs_rb : registry :=
  [ ("mcwr_0.75", {| alg := mcwr;
        kwargs := [("p", VFloat (QArith_base.Qmake 3 4)); ("boxing", VBool true)] |});
    ("mcwr_0.5",  {| alg := mcwr;
        kwargs := [("p", VFloat (QArith_base.Qmake 1 2)); ("boxing", VBool true)] |});
    ("mcwr_0.25", {| alg := mcwr;
        kwargs := [("p", VFloat (QArith_base.Qmake 1 4)); ("boxing", VBool true)] |});
    ("memb",      {| alg := memb; kwargs := [("boxing", VBool true)] |});
    ("random_sequential",
                  {| alg := random_sequential; kwargs := [("boxing", VBool true)] |});
    ("remcc",     {| alg := remcc; kwargs := [("return_centres", VBool false)] |}) ].

(** [d.keys()] *)
Definition keys (d : registry) : list string := map fst d.

(** [d[k]] *)
Definition getitem (d : registry) (k : string) : outcome entry :=
  match find (fun e => String.eqb (fst e) k) d with
  | Some e => Returns (snd e)
  | None => Raises KeyError
  end.

End Registry.

(* ===================================================================== *)
(** ** The driver [boxing_all] *)
(* ===================================================================== *)

Module Harness.
Import Py Graphs Registry.
Local Open Scope string_scope.
Local Open Scope Z_scope.

(** [{'path': ..., 'net': ..., 'alg': ...}] *)
Record Names : Type := { names_path : string; names_net : string; names_alg : string }.

(** What the notebook passes as [box_sizes]: a sequence of sizes, or
    the single number [lb[-1]]. *)
Inductive BoxSizes : Type :=
| Sweep (sizes : list Z)
| Single (size : Z).

(** What [boxing_all] does to the world outside it, in program order.
    Clock readings carry the value read; calls into [boxes.io] carry
    their arguments, the shared network object as it is at the call; a
    run of the collector carries the network object as it is then
    (what the collector can reclaim is what the object no longer
    holds). *)
Inductive Event : Type :=
| TimeTime (t : Z)
| GetDistDict
| SetShortestPaths (cache : option DistDict)
| GcCollect (network : Network)
| RandomSeed (n : Z)
| NpRandomSeed (n : Z)
| Benchmark (names : Names) (network : Network) (box_sizes : BoxSizes)
    (algorithm : Alg) (trials : Z) (kw : Kwargs)
| RunBoxing (names : Names) (time_offset : Z) (network : Network)
    (box_sizes : BoxSizes) (algorithm : Alg) (merge_alg : bool) (kw : Kwargs).

(** The state [boxing_all] runs in: how many times the clock has been
    read, the network object it was handed, and the events so far. *)
Record World : Type := {
  ticks : nat;
  the_network : Network;
  trace : list Event
}.

(** A statement: runs in a world, returns or raises. *)
Definition M (A : Type) : Type := World -> outcome (A * World).

Definition ret {A : Type} (a : A) : M A := fun w => Returns (a, w).

Definition mbind {A B : Type} (m : M A) (k : A -> M B) : M B :=
  fun w => match m w with
           | Returns (a, w') => k a w'
           | Raises e => Raises e
           | OutOfFuel => OutOfFuel
           end.

Declare Scope harness_scope.
Delimit Scope harness_scope with harness.
Notation "x <~ m ;; k" := (mbind m (fun x => k))
  (at level 61, m at next level, right associativity) : harness_scope.
Notation "m ;;; k" := (mbind m (fun _ => k))
  (at level 61, right associativity) : harness_scope.
Local Open Scope harness_scope.

Definition lift {A : Type} (o : outcome A) : M A :=
  fun w => match o with
           | Returns a => Returns (a, w)
           | Raises e => Raises e
           | OutOfFuel => OutOfFuel
           end.

Definition emit (e : Event) : M unit :=
  fun w => Returns (tt, {| ticks := ticks w;
                           the_network := the_network w;
                           trace := trace w ++ [e] |}).

Definition get_network : M Network := fun w => Returns (the_network w, w).

(** [gc.collect()] *)
Definition gc_collect : M unit :=
  nw <~ get_network ;;
  emit (GcCollect nw).

(** [for x in xs: body(x)] *)
Fixpoint for_each {A : Type} (xs : list A) (body : A -> M unit) : M unit :=
  match xs with
  | [] => ret tt
  | x :: rest => body x ;;; for_each rest body
  end.

(** [seq[-1]] *)
Definition last_item (seq : list Z) : outcome Z :=
  match rev seq with
  | [] => Raises IndexError
  | x :: _ => Returns x
  end.

Section Clock.

(** The wall clock: [clock k] is what the [k]-th call of [time.time()]
    made by [boxing_all] returns.  Readings are taken as integers
    (ticks), the arithmetic on them is subtraction only. *)
Variable clock : nat -> Z.

(** [time.time()] *)
Definition time_time : M Z :=
  fun w => let t := clock (ticks w) in
           Returns (t, {| ticks := S (ticks w);
                          the_network := the_network w;
                          trace := trace w ++ [TimeTime t] |}).

(** [network.shortest_paths = v] *)
Definition set_shortest_paths (v : option DistDict) : M unit :=
  fun w => Returns (tt, {| ticks := ticks w;
                           the_network := {| graph := graph (the_network w);
                                             shortest_paths := v |};
                           trace := trace w ++ [SetShortestPaths v] |}).

(** Modelled from the spec: the method [network.get_dist_dict()] is
    not among the sources; the specification has it trigger the
    precomputation of the distance cache, which is computed once and
    kept until dropped. *)
Definition get_dist_dict : M unit :=
  emit GetDistDict ;;;
  nw <~ get_network ;;
  match shortest_paths nw with
  | Some _ => ret tt
  | None =>
      d <~ lift (all_pairs_shortest_path_length (graph nw)) ;;
      fun w => Returns (tt, {| ticks := ticks w;
                               the_network := {| graph := graph nw;
                                                 shortest_paths := Some d |};
                               trace := trace w |})
  end.

(** The calls into [boxes.io]; their bodies are not among the sources.
    The call and its arguments are recorded; the call is taken to
    return and to leave the attributes of the network as they are. *)
Definition benchmark (names : Names) (box_sizes : BoxSizes) (algorithm : Alg)
  (trials : Z) (kw : Kwargs) : M unit :=
  nw <~ get_network ;;
  emit (Benchmark names nw box_sizes algorithm trials kw).

Definition run_boxing (names : Names) (time_offset : Z) (box_sizes : BoxSizes)
  (algorithm : Alg) (merge_alg : bool) (kw : Kwargs) : M unit :=
  nw <~ get_network ;;
  emit (RunBoxing names time_offset nw box_sizes algorithm merge_alg kw).

Definition mk_names (net algorithm : string) : Names :=
  {| names_path := Paths.path_ net None false;
     names_net := net;
     names_alg := algorithm |}.

(** Body of [for algorithm in algs_lb.keys()]. *)
Definition lb_body (net : string) (lb : list Z) (time_offset : Z)
  (algorithm : string) : M unit :=
  emit (RandomSeed 137) ;;;
  emit (NpRandomSeed 137) ;;;
  if negb (String.eqb algorithm "merge") && negb (String.eqb algorithm "fuzzy") then
    e <~ lift (getitem algs_lb algorithm) ;;
    run_boxing (mk_names net algorithm) time_offset (Sweep lb) (alg e) false (kwargs e)
  else if String.eqb algorithm "merge" then
    set_shortest_paths None ;;;
    gc_collect ;;;
    new_start <~ time_time ;;
    nw <~ get_network ;;
    d <~ lift (all_pairs_shortest_path_length (graph nw)) ;;
    set_shortest_paths (Some d) ;;;
    t <~ time_time ;;
    let new_offset := t - new_start in
    last <~ lift (last_item lb) ;;
    e <~ lift (getitem algs_lb algorithm) ;;
    run_boxing (mk_names net algorithm) new_offset (Single last) (alg e) true (kwargs e)
  else
    set_shortest_paths None ;;;
    gc_collect ;;;
    new_start <~ time_time ;;
    nw <~ get_network ;;
    d <~ lift (all_pairs_shortest_path_length (graph nw)) ;;
    set_shortest_paths (Some d) ;;;
    t <~ time_time ;;
    let new_offset := t - new_start in
    e <~ lift (getitem algs_lb algorithm) ;;
    run_boxing (mk_names net algorithm) new_offset (Sweep lb) (alg e) false (kwargs e).

(** Which arm of [if algorithm!='merge':] an iteration of the second
    loop takes; the [if] has no [else]. *)
Inductive rb_arm : Type := RunsBoxing | Skips.

Definition rb_guard (algorithm : string) : rb_arm :=
  if negb (String.eqb algorithm "merge") then RunsBoxing else Skips.

(** Body of [for algorithm in algs_rb.keys()]. *)
Definition rb_body (net : string) (rb : list Z) (time_offset : Z)
  (algorithm : string) : M unit :=
  emit (RandomSeed 137) ;;;
  emit (NpRandomSeed 137) ;;;
  match rb_guard algorithm with
  | RunsBoxing =>
      e <~ lift (getitem algs_rb algorithm) ;;
      run_boxing (mk_names net algorithm) time_offset (Sweep rb) (alg e) false (kwargs e)
  | Skips => ret tt
  end.

(** [def boxing_all(network,net,lb,rb)]; the network object is the
    one of the world. *)
Definition boxing_all (net : string) (lb rb : list Z) : M unit :=
  start <~ time_time ;;
  get_dist_dict ;;;
  t <~ time_time ;;
  let time_offset := t - start in
  e <~ lift (getitem algs_lb "greedy") ;;
  benchmark (mk_names net "greedy") (Sweep lb) greedy_coloring 10 (kwargs e) ;;;
  for_each (keys algs_lb) (lb_body net lb time_offset) ;;;
  for_each (keys algs_rb) (rb_body net rb time_offset).

End Clock.

Definition initial_world (nw : Network) : World :=
  {| ticks := 0; the_network := nw; trace := [] |}.

(** The events of a run, when it returns. *)
Definition events_of (r : outcome (unit * World)) : option (list Event) :=
  match r with
  | Returns (_, w) => Some (trace w)
  | _ => None
  end.

Definition is_run_boxing_of (a : Alg) (e : Event) : bool :=
  match e with
  | RunBoxing _ _ _ _ a' _ _ =>
      match a, a' with
      | cbb, cbb | greedy_coloring, greedy_coloring
      | merge_algorithm, merge_algorithm | obca, obca | fuzzy, fuzzy
      | mcwr, mcwr | memb, memb | random_sequential, random_sequential
      | remcc, remcc => true
      | _, _ => false
      end
  | _ => false
  end.

(** The merge clause of the specification, read on the events of a run
    for the sizes [lb]: [run_boxing] is called for merge with the
    largest of the requested sizes, on a network whose distance cache
    is dropped. *)
Definition merge_as_specified (lb : list Z) (events : list Event) : Prop :=
  exists names time_offset nw size merge_alg kw,
    In (RunBoxing names time_offset nw (Single size) merge_algorithm merge_alg kw)
       events
    /\ (forall x, In x lb -> (x <= size)%Z)
    /\ shortest_paths nw = None.

End Harness.

(* ===================================================================== *)
(** ** Diameter-bound covering: greedy coloring *)
(* ===================================================================== *)

Module Covering.
Import Py Graphs.
Local Open Scope outcome_scope.

(** The two readings of the diameter bound that the specification
    leaves open: members of a box are pairwise within [lb - 1] (the
    reading of its worked scenarios), or within [lb]. *)
Inductive Convention : Type := BelowLb | UpToLb.

Definition bound (conv : Convention) (lb : Z) : Z :=
  match conv with
  | BelowLb => (lb - 1)%Z
  | UpToLb => lb
  end.

(** The distance cache of a network, computed when it is not there. *)
Definition distances (nw : Network) : outcome DistDict :=
  match shortest_paths nw with
  | Some d => Returns d
  | None => all_pairs_shortest_path_length (graph nw)
  end.

Definition row_max (row : DistRow) : nat :=
  fold_right (fun e m => Nat.max (snd e) m) 0 row.

Definition diameter_of (d : DistDict) : nat :=
  fold_right (fun e m => Nat.max (row_max (snd e)) m) 0 d.

(** Modelled from the spec: the attribute [network.diameter] of the
    absent class [boxes.network], "max over all node pairs of
    shortest-path distance, computed lazily". *)
Definition diameter (nw : Network) : outcome nat :=
  d <- distances nw ;;
  Returns (diameter_of d).

(** [u] and [v] are within the bound [b] of each other, by the cache. *)
Definition near (d : DistDict) (b : Z) (u v : node) : bool :=
  match dist_get d u v with
  | Some x => (Z.of_nat x <=? b)%Z
  | None => false
  end.

(** [v] can join [box]: it is within the bound of every member. *)
Definition fits (d : DistDict) (b : Z) (v : node) (box : list node) : bool :=
  forallb (near d b v) box.

(** The lowest-indexed box that [v] can join takes it; if none fits, a
    new box is opened. *)
Fixpoint place (d : DistDict) (b : Z) (v : node) (boxes : list (list node))
  : list (list node) :=
  match boxes with
  | [] => [[v]]
  | box :: rest =>
      if fits d b v box then (box ++ [v]) :: rest
      else box :: place d b v rest
  end.

Definition greedy_boxes (d : DistDict) (b : Z) (order : list node)
  : list (list node) :=
  fold_left (fun boxes v => place d b v boxes) order [].

(** A partition: node -> box identifier. *)
Definition Partition : Type := list (node * nat).

Fixpoint label (i : nat) (boxes : list (list node)) : Partition :=
  match boxes with
  | [] => []
  | box :: rest => map (fun v => (v, i)) box ++ label (S i) rest
  end.

(** What a covering algorithm returns: the box count when [boxing] is
    true, the partition otherwise. *)
Inductive Covering : Type :=
| Count (n : nat)
| Boxes (p : Partition).

(** Modelled from the spec: [boxes.greedy_coloring] is not among the
    sources.  The specification: "processes nodes in a chosen order
    (configurable strategy, default a randomized sequential order)
    assigning each node the lowest-indexed existing box it can join
    without violating the diameter bound against all current members;
    if none fits, opens a new box".  The order the strategy produces is
    the argument [order]. *)
Definition greedy_coloring (conv : Convention) (nw : Network) (lb : Z)
  (boxing : bool) (order : list node) : outcome Covering :=
  d <- distances nw ;;
  let boxes := greedy_boxes d (bound conv lb) order in
  Returns (if boxing then Count (length boxes) else Boxes (label 0 boxes)).

(** "Box count = number of distinct box identifiers used". *)
Definition box_ids (p : Partition) : list nat := nodup Nat.eq_dec (map snd p).
Definition box_count (p : Partition) : nat := length (box_ids p).

(** Modelled from the spec: the invariant of a [Partition] of the lb
    family (section 3), for the nodes [vs] and the bound [b]: the
    partition is "a mapping from node to box identifier, covering every
    node in V exactly once", and "for every box, the maximum pairwise
    distance among its members" is at most the bound. *)
Definition valid_partition (d : DistDict) (b : Z) (vs : list node)
  (p : Partition) : Prop :=
  Permutation (map fst p) vs
  /\ forall u v i, In (u, i) p -> In (v, i) p -> u <> v -> near d b u v = true.

(** No two boxes of [p] could be joined into one: for any two of them,
    some member of the one is not within the bound of some member of
    the other. *)
Definition unjoinable (d : DistDict) (b : Z) (p : Partition) : Prop :=
  forall i j, In i (map snd p) -> In j (map snd p) -> i <> j ->
    exists u v, In (u, i) p /\ In (v, j) p /\ near d b u v = false.

(** The same two, for a network and a box size under a convention. *)
Definition lb_valid (conv : Convention) (nw : Network) (lb : Z)
  (p : Partition) : Prop :=
  exists d, distances nw = Returns d
            /\ valid_partition d (bound conv lb) (nodes (graph nw)) p.

Definition lb_unjoinable (conv : Convention) (nw : Network) (lb : Z)
  (p : Partition) : Prop :=
  exists d, distances nw = Returns d /\ unjoinable d (bound conv lb) p.

(** Modelled from the spec: the lb-family algorithms [boxes.cbb],
    [boxes.greedy_coloring], [boxes.merge_algorithm], [boxes.obca] and
    [boxes.fuzzy] are not among the sources.  What the specification
    asks of every one of them (sections 3, 4.2, 4.3 and 8), for an
    [algorithm] run on the network [nw] with its order or seed fixed, a
    function of the box size and of [boxing]: with [boxing=False] it
    returns a [Partition] that is valid for the size, and with
    [boxing=True] the number of distinct boxes of that partition. *)
Record lb_family (conv : Convention) (nw : Network)
  (algorithm : Z -> bool -> outcome Covering) : Prop := {
  returns_valid :
    forall lb, exists p, algorithm lb false = Returns (Boxes p)
                         /\ lb_valid conv nw lb p;
  returns_count :
    forall lb p, algorithm lb false = Returns (Boxes p) ->
                 algorithm lb true = Returns (Count (box_count p))
}.

(** At the size [lb], the algorithm leaves no two boxes that could be
    joined. *)
Definition joins_all (conv : Convention) (nw : Network)
  (algorithm : Z -> bool -> outcome Covering) (lb : Z) : Prop :=
  exists p, algorithm lb false = Returns (Boxes p)
            /\ lb_unjoinable conv nw lb p.

(** The members of a box are pairwise within the bound. *)
Definition within_box (d : DistDict) (b : Z) (box : list node) : Prop :=
  forall u v, In u box -> In v box -> u <> v -> near d b u v = true.

(** Some member of [bi] is not within the bound of some member of [bj]. *)
Definition apart (d : DistDict) (b : Z) (bi bj : list node) : Prop :=
  exists u v, In u bi /\ In v bj /\ near d b u v = false.

(** The distance cache of a network, when there is one, is the one
    computed from its graph. *)
Definition cache_consistent (nw : Network) : Prop :=
  forall d, shortest_paths nw = Some d ->
            all_pairs_shortest_path_length (graph nw) = Returns d.




(** The path on six nodes of the specification's scenario. *)
Definition path6 : Network :=
  network (from_edges [(0, 1); (1, 2); (2, 3); (3, 4); (4, 5)]).


End Covering.

(* ===================================================================== *)
(** ** Small inputs *)
(* ===================================================================== *)

Module Inputs.
Import Py Graphs.

(** An edge, a triangle and a self-loop: three components. *)
Definition two_parts : Graph := from_edges [(1,2); (3,4); (4,5); (5,3); (6,6)].

(** The graph that an empty edge list gives: no node at all. *)
Definition null_graph : Graph := from_edges [].

(** A path on three nodes, and a clock whose readings are 0, 1, 4, 9,
    16, 25, ...: no two intervals between readings are equally long. *)
Definition demo_network : Network := network (from_edges [(1,2); (2,3)]).
Definition demo_clock (k : nat) : Z := Z.of_nat (k * k).

End Inputs.

(* ===================================================================== *)
(** ** Further definitions *)
(* ===================================================================== *)

Module PathNames.
Local Open Scope string_scope.

(** What [path_] puts after the algorithm name. *)
Definition extension (bench : bool) : string :=
  if bench then "_benchmark.txt" else ".txt".

End PathNames.

(* ===================================================================== *)
(** ** Reading a trace of [boxing_all] *)
(* ===================================================================== *)

Module Traces.
Import Py Graphs Registry Harness.

(** A call into [boxes.io], by the algorithm name it is given. *)
Inductive Call : Type :=
| BenchmarkCall (algorithm : string)
| RunBoxingCall (algorithm : string).

(** The calls into [boxes.io] of a trace, in order, each with what
    [random.seed] and [np.random.seed] were last given since the call
    before it ([None]: not seeded since then). *)
Fixpoint seeded_calls (py np : option Z) (events : list Event)
  : list (Call * option Z * option Z) :=
  match events with
  | [] => []
  | RandomSeed n :: rest => seeded_calls (Some n) np rest
  | NpRandomSeed n :: rest => seeded_calls py (Some n) rest
  | Benchmark names _ _ _ _ _ :: rest =>
      (BenchmarkCall (names_alg names), py, np) :: seeded_calls None None rest
  | RunBoxing names _ _ _ _ _ _ :: rest =>
      (RunBoxingCall (names_alg names), py, np) :: seeded_calls None None rest
  | _ :: rest => seeded_calls py np rest
  end.

(** The [names] and the [time_offset] of the [run_boxing] calls of a
    trace, in order. *)
Definition run_boxing_names (events : list Event) : list Names :=
  flat_map (fun e => match e with
                     | RunBoxing names _ _ _ _ _ _ => [names]
                     | _ => []
                     end) events.

Definition run_boxing_offsets (events : list Event) : list Z :=
  flat_map (fun e => match e with
                     | RunBoxing _ time_offset _ _ _ _ _ => [time_offset]
                     | _ => []
                     end) events.

End Traces.

Module Parts.
Import Graphs.

(** [h] is a part of [g] that keeps all the edges of its nodes. *)
Definition full_part (h g : Graph) : Prop :=
  incl (nodes h) (nodes g)
  /\ forall u, In u (nodes h) -> adj h u = adj g u.
End Parts.

Module MoreInputs.
Import Py Graphs.

(** The distance dict of [Inputs.two_parts], computed. *)
Definition two_parts_cache : DistDict := Eval vm_compute in
    match all_pairs_shortest_path_length Inputs.two_parts with
    | Returns d => d
    | _ => []
    end.
End MoreInputs.

(* ===================================================================== *)
(** ** Facts about strings and the log path helper *)
(* ===================================================================== *)

Module PyStrFacts.
Import PyStr.
Local Open Scope string_scope.

Lemma append_assoc (a b c : string) : (a ++ b) ++ c = a ++ (b ++ c).
Proof. induction a as [| ch a IH]; simpl; [reflexivity | now rewrite IH]. Qed.

Lemma append_nil_r (a : string) : a ++ "" = a.
Proof. induction a as [| ch a IH]; simpl; [reflexivity | now rewrite IH]. Qed.

Lemma length_append (a b : string) :
  String.length (a ++ b) = String.length a + String.length b.
Proof. induction a as [| ch a IH]; simpl; [reflexivity | now rewrite IH]. Qed.

Lemma prefix_nil (s : string) : String.prefix "" s = true.
Proof. destruct s; reflexivity. Qed.

(** [String.prefix p s] holds exactly when [s] starts with [p]. *)
Lemma prefix_iff (p : string) :
  forall s, String.prefix p s = true <-> exists t, s = p ++ t.
Proof.
  induction p as [| a p IH]; intros s.
  - rewrite prefix_nil. split; [intros _; now exists s | reflexivity].
  - destruct s as [| b s]; simpl.
    + split; [discriminate | intros [t Ht]; discriminate].
    + destruct (Ascii.ascii_dec a b) as [-> | Hne].
      * rewrite IH. split; intros [t Ht]; exists t; congruence.
      * split; [discriminate | intros [t Ht]; congruence].
Qed.

(** [contains needle hay] holds exactly when [needle] occurs in [hay]. *)
Lemma contains_iff (needle : string) :
  forall hay,
    contains needle hay = true <-> exists pre post, hay = pre ++ needle ++ post.
Proof.
  induction hay as [| a hay IH]; cbn [contains]; rewrite orb_true_iff, prefix_iff.
  - split.
    + intros [[t Ht] | H]; [| discriminate]. now exists "", t.
    + intros [pre [post H]]. left. destruct pre; [now exists post | discriminate].
  - rewrite IH. split.
    + intros [[t Ht] | [pre [post H]]].
      * now exists "", t.
      * exists (String a pre), post. simpl. now rewrite H.
    + intros [pre [post H]]. destruct pre as [| b pre].
      * left. now exists post.
      * right. exists pre, post. simpl in H. congruence.
Qed.

Lemma substring_all (s : string) : forall m,
  String.length s <= m -> String.substring 0 m s = s.
Proof.
  induction s as [| a s IH]; intros m Hm.
  - destruct m; reflexivity.
  - destruct m as [| m]; simpl in *; [lia |]. rewrite IH; [reflexivity | lia].
Qed.

Lemma substring_suffix (s : string) : forall n,
  n <= String.length s ->
  exists pre, s = pre ++ String.substring n (String.length s - n) s
              /\ String.length pre = n.
Proof.
  induction s as [| a s IH]; intros n Hn.
  - exists "". simpl in *. assert (n = 0) by lia. subst. split; reflexivity.
  - destruct n as [| n].
    + exists "". rewrite Nat.sub_0_r, substring_all by lia. split; reflexivity.
    + simpl in Hn. destruct (IH n) as [pre [Hpre Hlen]]; [lia |].
      exists (String a pre). simpl. split; [congruence | lia].
Qed.

(** [s[-k:]] is the end of [s], [k] characters long when [s] has as many. *)
Lemma last_chars_suffix (k : nat) (s : string) :
  exists pre, s = pre ++ last_chars k s
              /\ String.length (last_chars k s) = Nat.min k (String.length s).
Proof.
  unfold last_chars. destruct (le_lt_dec k (String.length s)) as [Hle | Hgt].
  - destruct (substring_suffix s (String.length s - k)) as [pre [Hpre Hlen]]; [lia |].
    replace (String.length s - (String.length s - k)) with k in Hpre by lia.
    exists pre. split; [assumption |].
    apply (f_equal String.length) in Hpre. rewrite length_append in Hpre. lia.
  - replace (String.length s - k) with 0 by lia.
    rewrite substring_all by lia. exists "". split; [reflexivity | lia].
Qed.

(** A string that ends with [t] gives [t] back when cut at that point. *)
Lemma substring_append (b t : string) :
  String.substring (String.length b) (String.length t) (b ++ t) = t.
Proof.
  induction b as [| a b IH]; simpl; [| assumption].
  now apply substring_all.
Qed.

End PyStrFacts.

Module PathsFacts.
Import PyStr Paths PyStrFacts.
Local Open Scope string_scope.

(** C6, as the code has it.  For a network name without ['grid'] in it
    the path is [../../result_logs/{net}/{net}_{alg}.txt]; a name with
    ['grid'] in it is filed under [grid2d/] and the last two characters
    of the name instead; in both cases the file lies in the directory
    [path_(net)], and the benchmark variant differs from the plain one
    only in ending with [_benchmark.txt] instead of [.txt]. *)
Theorem path_follows_convention (net alg : string) :
  (contains "grid" net = false ->
   forall bench,
     path_ net (Some alg) bench = convention_path result_logs net alg bench)
  /\ (contains "grid" net = true ->
      forall bench,
        path_ net (Some alg) bench
        = "../../result_logs/grid2d/" ++ last_chars 2 net ++ "/"
          ++ net ++ "_" ++ alg ++ (if bench then "_benchmark.txt" else ".txt"))
  /\ (forall bench,
        path_ net (Some alg) bench
        = path_ net None false
          ++ net ++ "_" ++ alg ++ (if bench then "_benchmark.txt" else ".txt"))
  /\ (exists stem,
        path_ net (Some alg) false = stem ++ ".txt"
        /\ path_ net (Some alg) true = stem ++ "_benchmark.txt").
Proof.
  unfold path_, convention_path, result_logs.
  split; [| split; [| split]].
  - intros ->. intros [|]; now rewrite !append_assoc.
  - intros ->. intros [|]; now rewrite !append_assoc.
  - destruct (contains "grid" net); intros [|]; now rewrite !append_assoc.
  - destruct (contains "grid" net).
    + eexists. split; reflexivity.
    + eexists. split; reflexivity.
Qed.

Lemma path_follows_convention_witness :
  contains "grid" "facebook_caltech_demo" = false
  /\ path_ "facebook_caltech_demo" (Some "greedy") true
     = convention_path result_logs "facebook_caltech_demo" "greedy" true.
Proof.
  split; [reflexivity |].
  apply (proj1 (path_follows_convention "facebook_caltech_demo" "greedy")).
  reflexivity.
Defined.

(** C6 fails as stated: the path of a grid network does not follow
    [{base}/{network}/{network}_{algorithm}.txt], whatever [base] is. *)
Lemma grid_path_off_convention :
  ~ exists base,
      path_ "grid2d_20" (Some "greedy") false
      = convention_path base "grid2d_20" "greedy" false.
Proof.
  intros [base H]. unfold convention_path in H. cbn in H.
  assert (Hlen : String.length base = 17).
  { apply (f_equal String.length) in H. rewrite length_append in H.
    cbn in H. lia. }
  pose proof (substring_append base "/grid2d_20/grid2d_20_greedy.txt") as Hsub.
  rewrite <- H, Hlen in Hsub. cbn in Hsub. discriminate.
Qed.

End PathsFacts.

(* ===================================================================== *)
(** ** More about the log path helper: which calls name the same file *)
(* ===================================================================== *)

Module PathsMore.
Import PyStr Paths PathNames PyStrFacts.
Local Open Scope string_scope.

Lemma append_cancel_l (a b c : string) : a ++ b = a ++ c -> b = c.
Proof.
  induction a as [| ch a IH]; simpl; intros H; [assumption |].
  injection H as H. now apply IH.
Qed.

Lemma append_cancel_r (c : string) : forall a b, a ++ c = b ++ c -> a = b.
Proof.
  induction a as [| x a IH]; intros b H.
  - destruct b as [| y b]; [reflexivity |].
    apply (f_equal String.length) in H. simpl in H.
    rewrite length_append in H. lia.
  - destruct b as [| y b].
    + apply (f_equal String.length) in H. simpl in H.
      rewrite length_append in H. lia.
    + simpl in H. injection H as -> H. f_equal. now apply IH.
Qed.

Lemma contains_cons_false (needle : string) (ch : ascii) (s : string) :
  contains needle (String ch s) = false ->
  String.prefix needle (String ch s) = false /\ contains needle s = false.
Proof. cbn [contains]. intros H. now apply orb_false_iff in H. Qed.

Lemma prefix_char (ch : ascii) (s : string) :
  String.prefix (String ch "") (String ch s) = true.
Proof.
  cbn [String.prefix]. destruct (Ascii.ascii_dec ch ch); [apply prefix_nil | congruence].
Qed.

(** Two strings cut at their first ['/'] agree part by part. *)
Lemma split_at_slash (n1 : string) :
  forall n2 r1 r2,
    contains "/" n1 = false -> contains "/" n2 = false ->
    n1 ++ "/" ++ r1 = n2 ++ "/" ++ r2 ->
    n1 = n2 /\ r1 = r2.
Proof.
  induction n1 as [| a n1 IH]; intros n2 r1 r2 H1 H2 H.
  - destruct n2 as [| b n2]; [simpl in H; injection H as H; now split |].
    simpl in H. injection H as Hb _. subst b.
    apply contains_cons_false in H2. destruct H2 as [H2 _].
    rewrite prefix_char in H2. discriminate H2.
  - destruct n2 as [| b n2].
    + simpl in H. injection H as Ha _. subst a.
      apply contains_cons_false in H1. destruct H1 as [H1 _].
      rewrite prefix_char in H1. discriminate H1.
    + simpl in H. injection H as -> H.
      apply contains_cons_false in H1. apply contains_cons_false in H2.
      destruct (IH n2 r1 r2 (proj2 H1) (proj2 H2) H) as [-> ->]. now split.
Qed.

(** The file path, read from the left: directory, then the file name. *)
Lemma path_shape (net alg : string) (bench : bool) :
  path_ net (Some alg) bench
  = path_ net None false ++ (net ++ "_" ++ (alg ++ extension bench)).
Proof.
  unfold path_, extension.
  destruct (contains "grid" net), bench; now rewrite !append_assoc.
Qed.

Lemma path_alg_inj (net a1 a2 : string) (bench : bool) :
  path_ net (Some a1) bench = path_ net (Some a2) bench -> a1 = a2.
Proof.
  rewrite !path_shape. intros H.
  do 3 apply append_cancel_l in H. now apply append_cancel_r in H.
Qed.

(** X1. For one network name, two calls of [path_] name the same file
    exactly when algorithm and [bench] agree, or when one call is the
    benchmark variant for [alg] and the other the plain file of the
    algorithm named [alg ++ "_benchmark"]. *)
Theorem path_same_file (net a1 a2 : string) (b1 b2 : bool) :
  path_ net (Some a1) b1 = path_ net (Some a2) b2
  <-> (a1 = a2 /\ b1 = b2)
      \/ (b1 = true /\ b2 = false /\ a2 = a1 ++ "_benchmark")
      \/ (b1 = false /\ b2 = true /\ a1 = a2 ++ "_benchmark").
Proof.
  rewrite !path_shape. split.
  - intros H. do 3 apply append_cancel_l in H.
    destruct b1, b2; unfold extension in H.
    + left. split; [now apply append_cancel_r in H | reflexivity].
    + right. left. repeat split.
      change "_benchmark.txt" with ("_benchmark" ++ ".txt") in H.
      rewrite <- append_assoc in H. apply append_cancel_r in H. now symmetry.
    + right. right. repeat split.
      change "_benchmark.txt" with ("_benchmark" ++ ".txt") in H.
      rewrite <- append_assoc in H. now apply append_cancel_r in H.
    + left. split; [now apply append_cancel_r in H | reflexivity].
  - intros [[-> ->] | [(-> & -> & ->) | (-> & -> & ->)]].
    + reflexivity.
    + unfold extension. now rewrite append_assoc.
    + unfold extension. now rewrite append_assoc.
Qed.

(** X2. The path of a network whose name has neither ['/'] nor ['grid']
    in it is the path of no other network: if it equals the path built
    for a name that is a grid name or has no ['/'], the two names are
    the same. *)
Theorem path_names_network (n1 n2 a1 a2 : string) (b1 b2 : bool) :
  contains "/" n1 = false ->
  contains "grid" n1 = false ->
  contains "grid" n2 = true \/ contains "/" n2 = false ->
  path_ n1 (Some a1) b1 = path_ n2 (Some a2) b2 ->
  n1 = n2.
Proof.
  intros Hs1 Hg1 H2. rewrite !path_shape. unfold path_. rewrite Hg1.
  destruct (contains "grid" n2) eqn:Hg2; intros H.
  - exfalso.
    change "../../result_logs/grid2d/" with ("../../result_logs/" ++ "grid2d" ++ "/") in H.
    rewrite !append_assoc in H. apply append_cancel_l in H.
    apply split_at_slash in H; [| assumption | reflexivity].
    destruct H as [-> _]. discriminate Hg1.
  - destruct H2 as [H2 | H2]; [discriminate |].
    rewrite !append_assoc in H. apply append_cancel_l in H.
    now apply split_at_slash in H.
Qed.

Lemma path_names_network_witness :
  contains "/" "enzyme" = false
  /\ contains "grid" "enzyme" = false
  /\ (contains "grid" "enzyme" = true \/ contains "/" "enzyme" = false)
  /\ path_ "enzyme" (Some "cbb") true = path_ "enzyme" (Some "cbb_benchmark") false
  /\ "enzyme" = "enzyme".
Proof.
  split; [reflexivity |]. split; [reflexivity |]. split; [now right |].
  split; [reflexivity |].
  apply (path_names_network "enzyme" "enzyme" "cbb" "cbb_benchmark" true false).
  - reflexivity.
  - reflexivity.
  - now right.
  - reflexivity.
Defined.

Lemma last_chars_append (p s : string) :
  last_chars (String.length s) (p ++ s) = s.
Proof.
  unfold last_chars. rewrite length_append.
  replace (String.length p + String.length s - String.length s)
    with (String.length p) by lia.
  apply substring_append.
Qed.

(** X3. The grid cell of the notebook names a network ['grid2d_' + s]
    and writes its log directory as ['../../result_logs/grid2d/' + s +
    '/']; [path_] returns that directory for the network exactly when
    [s] has two characters. *)
Theorem grid_directory_agrees (s : string) (bench : bool) :
  path_ ("grid2d_" ++ s) None bench = "../../result_logs/grid2d/" ++ s ++ "/"
  <-> String.length s = 2.
Proof.
  assert (Hg : contains "grid" ("grid2d_" ++ s) = true).
  { apply contains_iff. now exists "", ("2d_" ++ s). }
  unfold path_. rewrite Hg. rewrite append_assoc. split.
  - intros H. apply append_cancel_l in H. apply append_cancel_r in H.
    destruct (last_chars_suffix 2 ("grid2d_" ++ s)) as [_ [_ Hlen]].
    rewrite H, length_append in Hlen. cbn [String.length] in Hlen. lia.
  - intros Hlen. rewrite <- Hlen at 1. now rewrite last_chars_append.
Qed.

End PathsMore.

(* ===================================================================== *)
(** ** Facts about the searches and the reader *)
(* ===================================================================== *)

Module GraphFacts.
Import Py Graphs.

Lemma mem_In (v : node) (s : list node) : mem v s = true <-> In v s.
Proof.
  unfold mem. rewrite existsb_exists. split.
  - intros [x [Hx Heq]]. apply Nat.eqb_eq in Heq. now subst.
  - intros H. exists v. split; [assumption | apply Nat.eqb_refl].
Qed.

Lemma mem_false (v : node) (s : list node) : mem v s = false <-> ~ In v s.
Proof.
  rewrite <- mem_In. destruct (mem v s); split; intros; congruence.
Qed.

Lemma length_nodes (g : Graph) : length (nodes g) = length g.
Proof. unfold nodes. apply length_map. Qed.

Lemma reach_in_nodes (g : Graph) (u v : node) :
  closed_graph g -> reach g u v -> In u (nodes g) /\ In v (nodes g).
Proof.
  intros Hc H. induction H as [v Hv | u v w Huv [IHu IHv] Hw].
  - split; assumption.
  - split; [assumption | eapply Hc; eassumption].
Qed.

Lemma reach_trans (g : Graph) (u v w : node) :
  reach g u v -> reach g v w -> reach g u w.
Proof.
  intros Huv Hvw. induction Hvw as [v Hv | v x y Hvx IH Hy].
  - assumption.
  - eapply reach_step; [apply IH; assumption | assumption].
Qed.

Lemma reach_sym (g : Graph) (u v : node) :
  closed_graph g -> symmetric_graph g -> reach g u v -> reach g v u.
Proof.
  intros Hc Hs H. induction H as [v Hv | u v w Huv IH Hw].
  - now apply reach_refl.
  - apply reach_trans with (v := v); [| assumption].
    apply reach_step with (v := w).
    + apply reach_refl. eapply Hc; eassumption.
    + now apply Hs.
Qed.

Section Search.

Variable g : Graph.
Hypothesis g_closed : closed_graph g.

(** What one sweep over a level does to [seen] and [nextlevel]. *)
Lemma visit_level_seen (this : list node) :
  forall seen next seen' next',
    visit_level g this seen next = (seen', next') ->
    forall x, In x seen' <-> In x seen \/ In x this.
Proof.
  induction this as [| v rest IH]; intros seen next seen' next' H x; simpl in H.
  - injection H as <- <-. simpl. tauto.
  - destruct (mem v seen) eqn:Hm.
    + apply mem_In in Hm. rewrite (IH _ _ _ _ H x). simpl.
      split; [tauto |]. intros [Hx | [<- | Hx]]; tauto.
    + rewrite (IH _ _ _ _ H x), in_app_iff. simpl. tauto.
Qed.

Lemma visit_level_nodup (this : list node) :
  forall seen next seen' next',
    visit_level g this seen next = (seen', next') ->
    NoDup seen -> NoDup seen'.
Proof.
  induction this as [| v rest IH]; intros seen next seen' next' H Hnd; simpl in H.
  - now injection H as <- <-.
  - destruct (mem v seen) eqn:Hm.
    + eapply IH; eassumption.
    + apply mem_false in Hm. eapply IH; [eassumption |].
      apply NoDup_app; [assumption | repeat constructor; simpl; tauto |].
      intros x Hx [<- | []]. contradiction.
Qed.

Lemma visit_level_next (this : list node) :
  forall seen next seen' next',
    visit_level g this seen next = (seen', next') ->
    forall x, In x next' <->
              In x next \/ exists v, In v seen' /\ ~ In v seen /\ In x (adj g v).
Proof.
  induction this as [| v rest IH]; intros seen next seen' next' H x; simpl in H.
  - injection H as <- <-. split; [tauto |].
    intros [Hx | [v [Hv [Hn _]]]]; [assumption | contradiction].
  - destruct (mem v seen) eqn:Hm.
    + apply (IH _ _ _ _ H x).
    + apply mem_false in Hm.
      pose proof (visit_level_seen _ _ _ _ _ H) as Hs.
      rewrite (IH _ _ _ _ H x), in_app_iff. split.
      * intros [[Hx | Hx] | [u [Hu [Hnu Hx]]]].
        -- now left.
        -- right. exists v. repeat split; try assumption.
           apply Hs. rewrite in_app_iff. simpl. tauto.
        -- right. exists u. repeat split; try assumption.
           intros Hin. apply Hnu. rewrite in_app_iff. now left.
      * intros [Hx | [u [Hu [Hnu Hx]]]]; [tauto |].
        destruct (Nat.eq_dec u v) as [-> | Hne]; [tauto |].
        right. exists u. repeat split; try assumption.
        rewrite in_app_iff. simpl. intros [? | [? | []]]; [tauto | congruence].
Qed.

Lemma visit_level_grows (this : list node) :
  forall seen next seen' next',
    visit_level g this seen next = (seen', next') ->
    length seen <= length seen'
    /\ (length seen' = length seen -> next' = next).
Proof.
  induction this as [| v rest IH]; intros seen next seen' next' H; simpl in H.
  - injection H as <- <-. split; [lia | reflexivity].
  - destruct (mem v seen) eqn:Hm.
    + apply (IH _ _ _ _ H).
    + destruct (IH _ _ _ _ H) as [Hlen Hsame].
      rewrite length_app in Hlen. simpl in Hlen. split; lia.
Qed.

Lemma bfs_inv_step (s : node) (seen next seen' next' : list node) :
  bfs_inv g s seen next ->
  visit_level g next seen [] = (seen', next') ->
  bfs_inv g s seen' next'.
Proof.
  intros [Hnd Hsn Hr Hf Hsrc] Hv.
  pose proof (visit_level_seen _ _ _ _ _ Hv) as Hs.
  pose proof (visit_level_nodup _ _ _ _ _ Hv) as Hnd'.
  pose proof (visit_level_next _ _ _ _ _ Hv) as Hn.
  assert (Hr' : forall x, In x seen' -> reach g s x).
  { intros x Hx. apply Hr. now apply Hs. }
  constructor.
  - auto.
  - intros x Hx. apply Hs in Hx. destruct Hx as [Hx | Hx].
    + now apply Hsn.
    + apply (reach_in_nodes g s x g_closed). apply Hr. now right.
  - intros x [Hx | Hx]; [now apply Hr' |].
    apply Hn in Hx. destruct Hx as [[] | [v [Hv' [_ Hx]]]].
    eapply reach_step; [apply Hr'; eassumption | assumption].
  - intros v w Hv' Hw.
    destruct (in_dec Nat.eq_dec v seen) as [Hin | Hnin].
    + left. apply Hs. destruct (Hf v w Hin Hw); tauto.
    + right. apply Hn. right. exists v. tauto.
  - left. apply Hs. tauto.
Qed.

Lemma bfs_loop_spec (s : node) (fuel : nat) :
  forall seen next,
    bfs_inv g s seen next ->
    next = [] \/ length (nodes g) < fuel + length seen ->
    exists c, bfs_loop fuel g seen next = Some c /\ bfs_inv g s c [].
Proof.
  induction fuel as [| fuel IH]; intros seen next Hinv Hfuel.
  - destruct next as [| x next].
    + exists seen. split; [reflexivity | assumption].
    + destruct Hfuel as [Hnil | Hlt]; [discriminate |].
      exfalso. pose proof (NoDup_incl_length (inv_nodup _ _ _ _ Hinv)
                             (inv_seen_nodes _ _ _ _ Hinv)). simpl in Hlt. lia.
  - destruct next as [| x next].
    + exists seen. split; [reflexivity | assumption].
    + destruct Hfuel as [Hnil | Hlt]; [discriminate |].
      destruct (visit_level g (x :: next) seen []) as [seen' next'] eqn:Hv.
      change (bfs_loop (S fuel) g seen (x :: next))
        with (let '(s', n') := visit_level g (x :: next) seen [] in
              bfs_loop fuel g s' n').
      rewrite Hv.
      pose proof (bfs_inv_step _ _ _ _ _ Hinv Hv) as Hinv'.
      destruct (visit_level_grows _ _ _ _ _ Hv) as [Hlen Hsame].
      apply IH; [assumption |].
      destruct (Nat.eq_dec (length seen') (length seen)) as [Heq | Hne].
      * left. now apply Hsame.
      * right. lia.
Qed.

(** [_plain_bfs] returns, and returns the nodes joined to the source. *)
Lemma plain_bfs_spec (s : node) :
  In s (nodes g) ->
  exists c, plain_bfs g s = Some c
            /\ NoDup c
            /\ forall w, In w c <-> reach g s w.
Proof.
  intros Hs. unfold plain_bfs.
  destruct (bfs_loop_spec s (S (length g)) [] [s]) as [c [Hc Hinv]].
  - constructor; simpl.
    + constructor.
    + intros x [].
    + intros x [[] | [<- | []]]. now apply reach_refl.
    + intros v w [].
    + right. now left.
  - right. rewrite length_nodes. simpl. lia.
  - exists c. split; [assumption |]. split; [apply (inv_nodup _ _ _ _ Hinv) |].
    intros w. split.
    + intros Hw. apply (inv_reach _ _ _ _ Hinv). now left.
    + intros Hr. induction Hr as [v Hv | u v w' Huv IHr Hw'].
      * destruct (inv_source _ _ _ _ Hinv) as [H | []]. exact H.
      * destruct (inv_frontier _ _ _ _ Hinv v w' (IHr Hs Hc Hinv) Hw') as [H | []].
        exact H.
Qed.

End Search.

Lemma plain_bfs_component (g : Graph) (s : node) :
  closed_graph g -> In s (nodes g) ->
  exists c, plain_bfs g s = Some c /\ is_component g c /\ In s c
            /\ forall w, In w c <-> reach g s w.
Proof.
  intros Hc Hs. destruct (plain_bfs_spec g Hc s Hs) as [c [Hb [Hnd Hr]]].
  exists c. split; [assumption |]. split; [| split; [| assumption]].
  - split; [assumption |]. exists s. split; assumption.
  - apply Hr. now apply reach_refl.
Qed.

Lemma component_in_nodes (g : Graph) (c : list node) :
  closed_graph g -> is_component g c -> incl c (nodes g).
Proof.
  intros Hc [_ [v [_ Hr]]] w Hw. apply Hr in Hw.
  now apply (reach_in_nodes g v w Hc).
Qed.

Lemma component_nonempty (g : Graph) (c : list node) :
  is_component g c -> c <> [].
Proof.
  intros [_ [v [Hv Hr]]] ->. apply (Hr v). now apply reach_refl.
Qed.

(** Two components that share a node have the same members. *)
Lemma component_same_length (g : Graph) (c1 c2 : list node) (x : node) :
  closed_graph g -> symmetric_graph g ->
  is_component g c1 -> is_component g c2 ->
  In x c1 -> In x c2 ->
  length c1 = length c2.
Proof.
  intros Hc Hs [Hnd1 [v1 [_ Hr1]]] [Hnd2 [v2 [_ Hr2]]] Hx1 Hx2.
  apply Permutation_length. apply NoDup_Permutation; try assumption.
  apply Hr1 in Hx1. apply Hr2 in Hx2.
  assert (H12 : reach g v1 v2).
  { eapply reach_trans; [eassumption | now apply reach_sym]. }
  assert (H21 : reach g v2 v1) by now apply reach_sym.
  intros w. rewrite Hr1, Hr2. split; intros H; eapply reach_trans; eassumption.
Qed.

(** [connected_components] returns; what it yields are components, and
    every node lies in one of them. *)
Lemma components_loop_spec (g : Graph) :
  closed_graph g ->
  forall vs seen,
    incl vs (nodes g) ->
    exists cs, components_loop g vs seen = Some cs
               /\ Forall (is_component g) cs
               /\ forall v, In v vs -> In v seen \/ exists c, In c cs /\ In v c.
Proof.
  intros Hc. induction vs as [| v rest IH]; intros seen Hvs.
  - exists []. split; [reflexivity |]. split; [constructor |]. intros v [].
  - assert (Hrest : incl rest (nodes g)) by (intros x Hx; apply Hvs; now right).
    simpl. destruct (mem v seen) eqn:Hm.
    + destruct (IH seen Hrest) as [cs [Hcs [Hall Hcov]]].
      exists cs. split; [assumption |]. split; [assumption |].
      intros x [<- | Hx]; [left; now apply mem_In | now apply Hcov].
    + destruct (plain_bfs_component g v Hc (Hvs v (or_introl eq_refl)))
        as [c [Hb [Hcomp [Hv _]]]].
      rewrite Hb.
      destruct (IH (seen ++ c) Hrest) as [cs [Hcs [Hall Hcov]]].
      rewrite Hcs. exists (c :: cs). split; [reflexivity |].
      split; [now constructor |].
      intros x [<- | Hx].
      * right. exists c. split; [now left | assumption].
      * destruct (Hcov x Hx) as [Hin | [c' [Hc' Hxc']]].
        -- apply in_app_iff in Hin. destruct Hin as [Hin | Hin]; [now left |].
           right. exists c. split; [now left | assumption].
        -- right. exists c'. split; [now right | assumption].
Qed.

Lemma connected_components_spec (g : Graph) :
  closed_graph g ->
  exists cs, connected_components g = Returns cs
             /\ Forall (is_component g) cs
             /\ forall v, In v (nodes g) -> exists c, In c cs /\ In v c.
Proof.
  intros Hc. unfold connected_components.
  destruct (components_loop_spec g Hc (nodes g) [] (incl_refl _))
    as [cs [Hcs [Hall Hcov]]].
  rewrite Hcs. exists cs. split; [reflexivity |]. split; [assumption |].
  intros v Hv. destruct (Hcov v Hv) as [[] | H]. exact H.
Qed.

(** [is_connected] returns on a graph with a node, and decides
    connectedness. *)
Lemma is_connected_spec (g : Graph) :
  well_formed g -> nodes g <> [] ->
  exists b, is_connected g = Returns b /\ (b = true <-> connected g).
Proof.
  intros [Hnd Hc Hs] Hne. unfold is_connected.
  destruct (nodes g) as [| v0 rest] eqn:Hnodes; [congruence |].
  assert (Hv0 : In v0 (nodes g)) by (rewrite Hnodes; now left).
  destruct (plain_bfs_component g v0 Hc Hv0) as [c [Hb [Hcomp [_ Hr]]]].
  rewrite Hb. eexists. split; [reflexivity |].
  pose proof (component_in_nodes g c Hc Hcomp) as Hincl.
  destruct Hcomp as [Hndc _].
  rewrite Nat.eqb_eq, <- length_nodes. split.
  - intros Hlen u v Hu Hv.
    assert (Hall : incl (nodes g) c).
    { apply NoDup_length_incl; [assumption | lia | assumption]. }
    apply reach_trans with (v := v0).
    + apply reach_sym; try assumption. apply Hr. now apply Hall.
    + apply Hr. now apply Hall.
  - intros Hconn. apply Permutation_length.
    apply NoDup_Permutation; try assumption; [now rewrite Hnodes |].
    intros w. split; [apply Hincl |]. intros Hw. apply Hr. now apply Hconn.
Qed.

(** [max(..., key=len)] picks an element of maximal length. *)
Lemma max_len_from_spec (cs : list (list node)) :
  forall best,
    In (max_len_from best cs) (best :: cs)
    /\ forall c, In c (best :: cs) -> length c <= length (max_len_from best cs).
Proof.
  induction cs as [| c0 cs IH]; intros best; simpl.
  - split; [now left |]. intros c [<- | []]. lia.
  - destruct (length best <? length c0) eqn:Hlt.
    + apply Nat.ltb_lt in Hlt. destruct (IH c0) as [Hin Hmax]. split.
      * right. exact Hin.
      * intros c [<- | Hc]; [| now apply Hmax].
        specialize (Hmax c0 (or_introl eq_refl)). lia.
    + apply Nat.ltb_ge in Hlt. destruct (IH best) as [Hin Hmax]. split.
      * destruct Hin as [Hin | Hin]; [now left | right; now right].
      * intros c [<- | [<- | Hc]].
        -- now apply Hmax; left.
        -- specialize (Hmax best (or_introl eq_refl)). lia.
        -- apply Hmax. now right.
Qed.

Lemma nodes_subgraph (g : Graph) (keep : list node) :
  nodes (subgraph g keep) = filter (fun v => mem v keep) (nodes g).
Proof.
  unfold subgraph, nodes. rewrite map_map. simpl.
  induction g as [| e g IH]; simpl; [reflexivity |].
  destruct (mem (fst e) keep); simpl; now rewrite IH.
Qed.

(** The induced subgraph on a component has exactly its nodes. *)
Lemma subgraph_component (g : Graph) (c : list node) :
  well_formed g -> is_component g c ->
  is_component g (nodes (subgraph g c))
  /\ length (nodes (subgraph g c)) = length c.
Proof.
  intros [Hnd Hc Hs] Hcomp.
  pose proof (component_in_nodes g c Hc Hcomp) as Hincl.
  destruct Hcomp as [Hndc [v [Hv Hr]]].
  rewrite nodes_subgraph.
  assert (Hsame : forall w, In w (filter (fun v => mem v c) (nodes g)) <-> In w c).
  { intros w. rewrite filter_In, mem_In. split; [tauto |].
    intros Hw. split; [now apply Hincl | assumption]. }
  assert (Hndf : NoDup (filter (fun v => mem v c) (nodes g))) by now apply NoDup_filter.
  split.
  - split; [assumption |]. exists v. split; [assumption |].
    intros w. now rewrite Hsame.
  - apply Permutation_length. now apply NoDup_Permutation.
Qed.

Lemma distinct_NoDup (s : list node) : distinct s = true <-> NoDup s.
Proof.
  induction s as [| x s IH]; simpl.
  - split; [constructor | reflexivity].
  - rewrite andb_true_iff, negb_true_iff, mem_false, IH. split.
    + intros [Hx Hs]. now constructor.
    + intros H. inversion H; subst. tauto.
Qed.

Lemma adj_entry (g : Graph) (u v : node) :
  In v (adj g u) -> exists e, In e g /\ fst e = u /\ snd e = adj g u.
Proof.
  unfold adj. destruct (find (fun e => fst e =? u) g) as [e |] eqn:Hf; [| intros []].
  intros _. apply find_some in Hf. destruct Hf as [Hin Heq].
  apply Nat.eqb_eq in Heq. exists e. tauto.
Qed.

Lemma well_formedb_sound (g : Graph) : well_formedb g = true -> well_formed g.
Proof.
  unfold well_formedb. rewrite !andb_true_iff. intros [[Hnd Hc] Hs].
  rewrite forallb_forall in Hc, Hs. constructor.
  - now apply distinct_NoDup.
  - intros u v Hv. destruct (adj_entry g u v Hv) as [e [He [_ Hsnd]]].
    specialize (Hc e He). rewrite forallb_forall in Hc.
    apply mem_In. apply Hc. now rewrite Hsnd.
  - intros u v Hv. destruct (adj_entry g u v Hv) as [e [He [Hfst Hsnd]]].
    specialize (Hs e He). rewrite forallb_forall in Hs.
    apply mem_In. rewrite <- Hfst. apply Hs. now rewrite Hsnd.
Qed.

(** *** Graphs built from edge lists are well formed *)

Lemma nodes_add_node (v : node) (g : Graph) (x : node) :
  In x (nodes (add_node v g)) <-> In x (nodes g) \/ x = v.
Proof.
  unfold add_node. destruct (mem v (nodes g)) eqn:Hm.
  - apply mem_In in Hm. split; [tauto |]. intros [H | ->]; assumption.
  - unfold nodes. rewrite map_app, in_app_iff. simpl. intuition congruence.
Qed.

Lemma nodup_add_node (v : node) (g : Graph) :
  NoDup (nodes g) -> NoDup (nodes (add_node v g)).
Proof.
  intros Hnd. unfold add_node. destruct (mem v (nodes g)) eqn:Hm; [assumption |].
  apply mem_false in Hm. unfold nodes in *. rewrite map_app. simpl.
  apply NoDup_app; [assumption | repeat constructor; simpl; tauto |].
  intros x Hx [<- | []]. contradiction.
Qed.

Lemma nodes_add_neighbour (u v : node) (g : Graph) :
  nodes (add_neighbour u v g) = nodes g.
Proof.
  unfold add_neighbour, nodes. rewrite map_map. apply map_ext.
  intros e. now destruct (fst e =? u).
Qed.

Lemma adj_cons (e : node * list node) (g : Graph) (w : node) :
  adj (e :: g) w = if fst e =? w then snd e else adj g w.
Proof. unfold adj. cbn [find]. now destruct (fst e =? w). Qed.

Lemma adj_absent (g : Graph) (w : node) : ~ In w (nodes g) -> adj g w = [].
Proof.
  induction g as [| e g IH]; intros Hw; [reflexivity |].
  rewrite adj_cons. destruct (fst e =? w) eqn:He.
  - apply Nat.eqb_eq in He. exfalso. apply Hw. now left.
  - apply IH. intros H. apply Hw. now right.
Qed.

Lemma adj_add_node (v : node) (g : Graph) (w : node) :
  adj (add_node v g) w = adj g w.
Proof.
  unfold add_node. destruct (mem v (nodes g)); [reflexivity |].
  induction g as [| e g IH].
  - cbn [app]. rewrite adj_cons. cbn [fst snd]. now destruct (v =? w).
  - cbn [app]. rewrite !adj_cons. now rewrite IH.
Qed.

Lemma adj_add_neighbour (u v : node) (g : Graph) (w x : node) :
  In u (nodes g) ->
  In x (adj (add_neighbour u v g) w) <-> In x (adj g w) \/ (w = u /\ x = v).
Proof.
  unfold add_neighbour. induction g as [| e g IH]; intros Hu; [destruct Hu |].
  cbn [map]. rewrite !adj_cons.
  destruct (fst e =? u) eqn:Heu; cbn [fst snd].
  - apply Nat.eqb_eq in Heu. destruct (fst e =? w) eqn:Hew.
    + apply Nat.eqb_eq in Hew. destruct (mem v (snd e)) eqn:Hm.
      * apply mem_In in Hm. split; [tauto |]. intros [H | [_ ->]]; assumption.
      * rewrite in_app_iff. simpl. intuition congruence.
    + apply Nat.eqb_neq in Hew.
      destruct (in_dec Nat.eq_dec u (nodes g)) as [Hin | Hnin].
      * rewrite (IH Hin). intuition congruence.
      * assert (Hsame : forall y, adj (map (fun e0 : node * list node =>
                   if fst e0 =? u
                   then (fst e0, if mem v (snd e0) then snd e0 else snd e0 ++ [v])
                   else e0) g) y = adj g y).
        { intros y. f_equal. rewrite <- (map_id g) at 2. apply map_ext_in.
          intros e0 He0. destruct (fst e0 =? u) eqn:H0; [| reflexivity].
          apply Nat.eqb_eq in H0. exfalso. apply Hnin. rewrite <- H0.
          now apply in_map. }
        rewrite Hsame. intuition congruence.
  - apply Nat.eqb_neq in Heu. destruct Hu as [Hu | Hu]; [contradiction |].
    destruct (fst e =? w) eqn:Hew.
    + apply Nat.eqb_eq in Hew. intuition congruence.
    + now apply IH.
Qed.

Lemma nodes_add_edge (u v : node) (g : Graph) (x : node) :
  In x (nodes (add_edge u v g)) <-> In x (nodes g) \/ x = u \/ x = v.
Proof.
  unfold add_edge. rewrite !nodes_add_neighbour, !nodes_add_node. tauto.
Qed.

Lemma adj_add_edge (u v : node) (g : Graph) (w x : node) :
  In x (adj (add_edge u v g) w)
  <-> In x (adj g w) \/ (w = u /\ x = v) \/ (w = v /\ x = u).
Proof.
  unfold add_edge.
  rewrite adj_add_neighbour.
  2:{ rewrite nodes_add_neighbour. apply nodes_add_node. now right. }
  rewrite adj_add_neighbour.
  2:{ apply nodes_add_node. left. apply nodes_add_node. now right. }
  rewrite !adj_add_node. tauto.
Qed.

Lemma add_edge_well_formed (u v : node) (g : Graph) :
  well_formed g -> well_formed (add_edge u v g).
Proof.
  intros [Hnd Hc Hs]. constructor.
  - unfold add_edge. rewrite !nodes_add_neighbour. now do 2 apply nodup_add_node.
  - intros w x Hx. apply adj_add_edge in Hx. apply nodes_add_edge.
    destruct Hx as [Hx | [[_ ->] | [_ ->]]]; [left; eapply Hc; eassumption | tauto | tauto].
  - intros w x Hx. apply adj_add_edge in Hx. apply adj_add_edge.
    destruct Hx as [Hx | [[-> ->] | [-> ->]]]; [left; now apply Hs | tauto | tauto].
Qed.

(** Every graph that [add_edges_from] builds from an edge list, self-loops
    and repeated edges included, is well formed. *)
Lemma from_edges_well_formed (edges : list (node * node)) :
  well_formed (from_edges edges).
Proof.
  unfold from_edges.
  assert (Hgen : forall g, well_formed g ->
            well_formed (fold_left (fun g e => add_edge (fst e) (snd e) g) edges g)).
  { induction edges as [| e edges IH]; intros g Hwf; [exact Hwf |].
    cbn [fold_left]. apply IH. now apply add_edge_well_formed. }
  apply Hgen. constructor.
  - constructor.
  - intros u v [].
  - intros u v [].
Qed.

(** C5, for a graph with at least one node.  Whatever graph the edge
    list reader hands over, provided it has a node,
    [read_max_connected_component] returns a network whose nodes are
    exactly those of one connected component of that graph, and no
    component has more nodes; when the graph is connected the network
    holds the graph itself, so all of its nodes. *)
Theorem largest_component (reader : string -> nat -> Graph)
  (path : string) (header_length : nat) :
  let g := reader path header_length in
  well_formed g ->
  nodes g <> [] ->
  exists nw,
    read_max_connected_component reader path header_length = Returns nw
    /\ is_component g (nodes (graph nw))
    /\ (forall c, is_component g c -> length c <= length (nodes (graph nw)))
    /\ (connected g -> graph nw = g).
Proof.
  intros g Hwf Hne. unfold read_max_connected_component. fold g.
  destruct (is_connected_spec g Hwf Hne) as [b [Hb Hconn]].
  rewrite Hb. cbn [bind]. pose proof Hwf as [Hnd Hc Hs].
  destruct b; cbn [negb].
  - (* the graph is connected: it is its own largest component *)
    assert (Hcg : connected g) by now apply Hconn.
    exists (network g). split; [reflexivity |]. cbn [graph network].
    assert (Hex : exists v0, In v0 (nodes g)).
    { destruct (nodes g) as [| v0 rest]; [congruence | exists v0; now left]. }
    destruct Hex as [v0 Hv0].
    assert (Hcomp : is_component g (nodes g)).
    { split; [assumption |]. exists v0. split; [assumption |].
      intros w. split.
      - intros Hw. now apply Hcg.
      - intros Hr. now apply (reach_in_nodes g v0 w Hc). }
    split; [assumption |]. split; [| reflexivity].
    intros c Hcc. apply NoDup_incl_length; [apply Hcc |].
    now apply component_in_nodes.
  - (* the graph is disconnected: the first component of maximal size *)
    destruct (connected_components_spec g Hc) as [cs [Hcs [Hall Hcov]]].
    rewrite Hcs. cbn [bind].
    destruct cs as [| c0 cs].
    { exfalso. destruct (nodes g) as [| v0 rest]; [congruence |].
      destruct (Hcov v0) as [c [[] _]]. now left. }
    cbn [max_key_len bind].
    destruct (max_len_from_spec cs c0) as [Hin Hmax].
    set (largest := max_len_from c0 cs) in *.
    assert (Hlc : is_component g largest).
    { rewrite Forall_forall in Hall. now apply Hall. }
    destruct (subgraph_component g largest Hwf Hlc) as [Hsub Hlen].
    eexists. split; [reflexivity |]. cbn [graph network].
    split; [assumption |]. split.
    + intros c Hcc. rewrite Hlen.
      destruct c as [| x c'] eqn:Hceq; [simpl; lia |]. rewrite <- Hceq in *.
      assert (Hx : In x c) by (rewrite Hceq; now left).
      assert (Hxn : In x (nodes g)) by now apply (component_in_nodes g c Hc Hcc).
      destruct (Hcov x Hxn) as [c1 [Hc1 Hxc1]].
      rewrite (component_same_length g c c1 x Hc Hs Hcc); try assumption.
      * now apply Hmax.
      * rewrite Forall_forall in Hall. now apply Hall.
    + intros Hcg. apply Hconn in Hcg. discriminate.
Qed.

Lemma largest_component_witness :
  well_formed Inputs.two_parts
  /\ nodes Inputs.two_parts <> []
  /\ exists nw,
       read_max_connected_component (fun _ _ => Inputs.two_parts) "g.edges" 0
       = Returns nw
       /\ is_component Inputs.two_parts (nodes (graph nw))
       /\ (forall c, is_component Inputs.two_parts c ->
                     length c <= length (nodes (graph nw)))
       /\ (connected Inputs.two_parts -> graph nw = Inputs.two_parts).
Proof.
  split; [apply well_formedb_sound; reflexivity |].
  split; [discriminate |].
  apply (largest_component (fun _ _ => Inputs.two_parts) "g.edges" 0).
  - apply well_formedb_sound. reflexivity.
  - discriminate.
Defined.

(** C5 fails as stated: on the graph without nodes, which is what an
    empty edge list gives, [nx.is_connected] raises and no network is
    returned. *)
Lemma null_graph_gives_no_network :
  well_formed Inputs.null_graph
  /\ read_max_connected_component (fun _ _ => Inputs.null_graph) "g.edges" 0
     = Raises NetworkXPointlessConcept
  /\ ~ exists nw,
        read_max_connected_component (fun _ _ => Inputs.null_graph) "g.edges" 0
        = Returns nw.
Proof.
  split; [apply well_formedb_sound; reflexivity |].
  split; [reflexivity |].
  intros [nw H]. discriminate H.
Qed.

End GraphFacts.

(* ===================================================================== *)
(** ** More about the reader: the network it returns *)
(* ===================================================================== *)

Module GraphMore.
Import Py Graphs GraphFacts.

Lemma adj_subgraph (g : Graph) (keep : list node) (u : node) :
  adj (subgraph g keep) u
  = if mem u keep then filter (fun w => mem w keep) (adj g u) else [].
Proof.
  unfold subgraph. induction g as [| e g IH]; cbn [filter map].
  - unfold adj. cbn. now destruct (mem u keep).
  - rewrite (adj_cons e g u). destruct (mem (fst e) keep) eqn:He; cbn [map].
    + rewrite adj_cons. cbn [fst snd]. destruct (fst e =? u) eqn:Heu.
      * apply Nat.eqb_eq in Heu. rewrite <- Heu, He. reflexivity.
      * exact IH.
    + destruct (fst e =? u) eqn:Heu; [| exact IH].
      apply Nat.eqb_eq in Heu. rewrite IH, <- Heu, He. reflexivity.
Qed.

Lemma subgraph_well_formed (g : Graph) (keep : list node) :
  well_formed g -> well_formed (subgraph g keep).
Proof.
  intros [Hnd Hc Hs]. constructor.
  - rewrite nodes_subgraph. now apply NoDup_filter.
  - intros u v Hv. rewrite adj_subgraph in Hv.
    destruct (mem u keep); [| destruct Hv].
    apply filter_In in Hv. destruct Hv as [Hv Hk].
    rewrite nodes_subgraph. apply filter_In. split; [| assumption].
    eapply Hc; eassumption.
  - intros u v Hv. rewrite adj_subgraph in Hv. rewrite adj_subgraph.
    destruct (mem u keep) eqn:Hu; [| destruct Hv].
    apply filter_In in Hv. destruct Hv as [Hv Hk]. rewrite Hk.
    apply filter_In. split; [now apply Hs | assumption].
Qed.

(** A component holds the neighbours of its members. *)
Lemma component_closed (g : Graph) (c : list node) (u w : node) :
  is_component g c -> In u c -> In w (adj g u) -> In w c.
Proof.
  intros [_ [v [_ Hr]]] Hu Hw. apply Hr. apply Hr in Hu.
  eapply reach_step; eassumption.
Qed.

Lemma adj_subgraph_component (g : Graph) (c : list node) (u : node) :
  is_component g c -> In u c -> adj (subgraph g c) u = adj g u.
Proof.
  intros Hcomp Hu. rewrite adj_subgraph.
  assert (Hm : mem u c = true) by now apply mem_In.
  rewrite Hm. apply forallb_filter_id. apply forallb_forall.
  intros w Hw. apply mem_In. eapply component_closed; eassumption.
Qed.

Lemma reach_subgraph (g : Graph) (c : list node) (u v : node) :
  closed_graph g -> is_component g c -> In u c ->
  reach g u v -> reach (subgraph g c) u v /\ In v c.
Proof.
  intros Hc Hcomp Hu Hr. induction Hr as [v Hv | u v w Huv IH Hw].
  - split; [| assumption]. apply reach_refl. rewrite nodes_subgraph.
    apply filter_In. split; [assumption | now apply mem_In].
  - destruct (IH Hu) as [Hsub Hvc]. split.
    + apply reach_step with (v := v); [assumption |].
      now rewrite adj_subgraph_component.
    + eapply component_closed; eassumption.
Qed.

Lemma subgraph_connected (g : Graph) (c : list node) :
  well_formed g -> is_component g c -> connected (subgraph g c).
Proof.
  intros [Hnd Hc Hs] Hcomp u v Hu Hv.
  rewrite nodes_subgraph in Hu, Hv. apply filter_In in Hu, Hv.
  destruct Hu as [_ Hu], Hv as [_ Hv]. apply mem_In in Hu, Hv.
  apply (reach_subgraph g c u v Hc Hcomp Hu).
  pose proof Hcomp as [_ [v0 [_ Hr]]]. apply Hr in Hu, Hv.
  eapply reach_trans; [apply reach_sym |]; eassumption.
Qed.

Lemma is_connected_decides (g : Graph) (b : bool) :
  well_formed g -> is_connected g = Returns b ->
  nodes g <> [] /\ (b = true <-> connected g).
Proof.
  intros Hwf H.
  assert (Hne : nodes g <> []).
  { intros Hnil. unfold is_connected in H. rewrite Hnil in H. discriminate. }
  split; [assumption |].
  destruct (is_connected_spec g Hwf Hne) as [b' [Hb Hiff]].
  rewrite H in Hb. injection Hb as <-. exact Hiff.
Qed.

(** The first of the longest: no earlier element is as long. *)
Lemma max_len_from_first (cs : list (list node)) :
  forall best,
    exists pre post,
      best :: cs = pre ++ max_len_from best cs :: post
      /\ (forall c, In c pre -> length c < length (max_len_from best cs))
      /\ (forall c, In c post -> length c <= length (max_len_from best cs)).
Proof.
  induction cs as [| c0 cs IH]; intros best; cbn [max_len_from].
  - exists [], []. split; [reflexivity |]. split; intros c [].
  - destruct (length best <? length c0) eqn:Hlt.
    + apply Nat.ltb_lt in Hlt. destruct (IH c0) as [pre [post [Heq [Hpre Hpost]]]].
      exists (best :: pre), post. split; [cbn; now rewrite Heq |].
      split; [| assumption]. intros c [<- | Hc]; [| now apply Hpre].
      destruct (max_len_from_spec cs c0) as [_ Hmax].
      specialize (Hmax c0 (or_introl eq_refl)). lia.
    + apply Nat.ltb_ge in Hlt. destruct (IH best) as [pre [post [Heq [Hpre Hpost]]]].
      destruct pre as [| p pre].
      * cbn in Heq. injection Heq as Hb Hcs.
        exists [], (c0 :: cs). split; [cbn; now rewrite <- Hb |].
        split; [intros c [] |]. intros c [<- | Hc].
        -- rewrite <- Hb. exact Hlt.
        -- apply Hpost. rewrite <- Hcs. exact Hc.
      * cbn in Heq. injection Heq as Hp Hcs. subst p.
        exists (best :: c0 :: pre), post. split; [cbn; do 2 f_equal; exact Hcs |].
        split; [| assumption]. intros c [<- | [<- | Hc]].
        -- apply Hpre. now left.
        -- specialize (Hpre best (or_introl eq_refl)). lia.
        -- apply Hpre. now right.
Qed.

(** The two ways [read_max_connected_component] returns. *)
Lemma reader_cases (reader : string -> nat -> Graph) (path : string)
  (header_length : nat) :
  let g := reader path header_length in
  well_formed g -> nodes g <> [] ->
  (connected g
   /\ read_max_connected_component reader path header_length
      = Returns (network g))
  \/ (~ connected g
      /\ exists cs pre largest post,
           connected_components g = Returns cs
           /\ Forall (is_component g) cs
           /\ cs = pre ++ largest :: post
           /\ (forall c, In c pre -> length c < length largest)
           /\ (forall c, In c post -> length c <= length largest)
           /\ read_max_connected_component reader path header_length
              = Returns (network (subgraph g largest))).
Proof.
  intros g Hwf Hne. unfold read_max_connected_component. fold g.
  destruct (is_connected_spec g Hwf Hne) as [b [Hb Hconn]].
  rewrite Hb. cbn [bind]. destruct b; cbn [negb].
  - left. split; [now apply Hconn | reflexivity].
  - right. split; [intros H; apply Hconn in H; discriminate |].
    destruct (connected_components_spec g (wf_closed g Hwf)) as [cs [Hcs [Hall Hcov]]].
    rewrite Hcs. cbn [bind].
    destruct cs as [| c0 cs].
    { exfalso. destruct (nodes g) as [| v0 rest]; [congruence |].
      destruct (Hcov v0) as [c [[] _]]. now left. }
    cbn [max_key_len bind].
    destruct (max_len_from_first cs c0) as [pre [post [Heq [Hpre Hpost]]]].
    exists (c0 :: cs), pre, (max_len_from c0 cs), post.
    repeat split; try assumption.
Qed.

Lemma two_parts_well_formed : well_formed Inputs.two_parts.
Proof. apply from_edges_well_formed. Qed.

Lemma two_parts_disconnected : ~ connected Inputs.two_parts.
Proof.
  intros H.
  destruct (is_connected_decides Inputs.two_parts false two_parts_well_formed
              eq_refl) as [_ Hiff].
  apply Hiff in H. discriminate H.
Qed.

(** X4. The network that [read_max_connected_component] returns wraps a
    well-formed, connected graph with at least one node: [nx.is_connected]
    holds of it, and reading it again returns the same network. *)
Theorem reader_returns_connected (reader : string -> nat -> Graph)
  (path : string) (header_length : nat) :
  let g := reader path header_length in
  well_formed g ->
  nodes g <> [] ->
  exists nw,
    read_max_connected_component reader path header_length = Returns nw
    /\ well_formed (graph nw)
    /\ connected (graph nw)
    /\ nodes (graph nw) <> []
    /\ is_connected (graph nw) = Returns true
    /\ forall path' header_length',
         read_max_connected_component (fun _ _ => graph nw) path' header_length'
         = Returns nw.
Proof.
  intros g Hwf Hne.
  assert (Hgen : forall h, well_formed h -> connected h -> nodes h <> [] ->
            is_connected h = Returns true
            /\ forall p n, read_max_connected_component (fun _ _ => h) p n
                           = Returns (network h)).
  { intros h Hh Hch Hnh.
    destruct (is_connected_spec h Hh Hnh) as [b [Hb Hiff]].
    apply Hiff in Hch. subst b. split; [assumption |].
    intros p n. unfold read_max_connected_component. now rewrite Hb. }
  destruct (reader_cases reader path header_length Hwf Hne)
    as [[Hconn Hret] | [_ (cs & pre & largest & post & _ & Hall & Hcs & _ & _ & Hret)]];
    fold g in Hret, Hconn || fold g in Hret.
  - exists (network g). cbn [graph network].
    destruct (Hgen g Hwf Hconn Hne) as [Hic Hagain].
    split; [assumption |]. split; [assumption |]. split; [assumption |].
    split; [assumption |]. split; assumption.
  - assert (Hcomp : is_component g largest).
    { rewrite Forall_forall in Hall. apply Hall. rewrite Hcs.
      apply in_app_iff. right. now left. }
    assert (Hsw : well_formed (subgraph g largest)) by now apply subgraph_well_formed.
    assert (Hsc : connected (subgraph g largest)) by now apply subgraph_connected.
    assert (Hsn : nodes (subgraph g largest) <> []).
    { destruct (subgraph_component g largest Hwf Hcomp) as [Hsub _].
      now apply (component_nonempty g). }
    exists (network (subgraph g largest)). cbn [graph network].
    destruct (Hgen _ Hsw Hsc Hsn) as [Hic Hagain].
    split; [assumption |]. split; [assumption |]. split; [assumption |].
    split; [assumption |]. split; assumption.
Qed.

Lemma reader_returns_connected_witness :
  well_formed Inputs.two_parts
  /\ nodes Inputs.two_parts <> []
  /\ exists nw,
       read_max_connected_component (fun _ _ => Inputs.two_parts) "g.edges" 0
       = Returns nw
       /\ well_formed (graph nw)
       /\ connected (graph nw)
       /\ nodes (graph nw) <> []
       /\ is_connected (graph nw) = Returns true
       /\ forall path' header_length',
            read_max_connected_component (fun _ _ => graph nw) path' header_length'
            = Returns nw.
Proof.
  split; [exact two_parts_well_formed |]. split; [discriminate |].
  apply (reader_returns_connected (fun _ _ => Inputs.two_parts) "g.edges" 0).
  - exact two_parts_well_formed.
  - discriminate.
Defined.

(** X5. The network returned keeps the edges of the graph that was read:
    a node of the network has the neighbours it had, in the same order,
    and nothing else has neighbours. *)
Theorem reader_keeps_edges (reader : string -> nat -> Graph)
  (path : string) (header_length : nat) :
  let g := reader path header_length in
  well_formed g ->
  nodes g <> [] ->
  exists nw,
    read_max_connected_component reader path header_length = Returns nw
    /\ (forall u, In u (nodes (graph nw)) -> adj (graph nw) u = adj g u)
    /\ (forall u, ~ In u (nodes (graph nw)) -> adj (graph nw) u = []).
Proof.
  intros g Hwf Hne.
  destruct (reader_cases reader path header_length Hwf Hne)
    as [[Hconn Hret] | [_ (cs & pre & largest & post & _ & Hall & Hcs & _ & _ & Hret)]];
    fold g in Hret, Hconn || fold g in Hret.
  - exists (network g). cbn [graph network]. split; [assumption |].
    split; [reflexivity |]. intros u Hu. now apply adj_absent.
  - assert (Hcomp : is_component g largest).
    { rewrite Forall_forall in Hall. apply Hall. rewrite Hcs.
      apply in_app_iff. right. now left. }
    exists (network (subgraph g largest)). cbn [graph network].
    split; [assumption |]. split; intros u Hu.
    + apply adj_subgraph_component; [assumption |].
      rewrite nodes_subgraph in Hu. apply filter_In in Hu. now apply mem_In.
    + apply adj_absent. exact Hu.
Qed.

Lemma reader_keeps_edges_witness :
  well_formed Inputs.two_parts
  /\ nodes Inputs.two_parts <> []
  /\ exists nw,
       read_max_connected_component (fun _ _ => Inputs.two_parts) "g.edges" 0
       = Returns nw
       /\ (forall u, In u (nodes (graph nw)) ->
                     adj (graph nw) u = adj Inputs.two_parts u)
       /\ (forall u, ~ In u (nodes (graph nw)) -> adj (graph nw) u = []).
Proof.
  split; [exact two_parts_well_formed |]. split; [discriminate |].
  apply (reader_keeps_edges (fun _ _ => Inputs.two_parts) "g.edges" 0).
  - exact two_parts_well_formed.
  - discriminate.
Defined.

(** X6. The network returned never has more nodes than the graph that
    was read, and has as many exactly when that graph is connected: a
    disconnected graph always loses nodes. *)
Theorem reader_drops_nodes (reader : string -> nat -> Graph)
  (path : string) (header_length : nat) :
  let g := reader path header_length in
  well_formed g ->
  nodes g <> [] ->
  exists nw,
    read_max_connected_component reader path header_length = Returns nw
    /\ length (nodes (graph nw)) <= length (nodes g)
    /\ (length (nodes (graph nw)) = length (nodes g) <-> connected g).
Proof.
  intros g Hwf Hne.
  destruct (reader_cases reader path header_length Hwf Hne)
    as [[Hconn Hret] | [Hdis (cs & pre & largest & post & _ & Hall & Hcs & _ & _ & Hret)]];
    fold g in Hret, Hconn || fold g in Hret, Hdis.
  - exists (network g). cbn [graph network]. split; [assumption |].
    split; [lia | tauto].
  - assert (Hcomp : is_component g largest).
    { rewrite Forall_forall in Hall. apply Hall. rewrite Hcs.
      apply in_app_iff. right. now left. }
    exists (network (subgraph g largest)). cbn [graph network].
    split; [assumption |]. rewrite nodes_subgraph.
    split; [apply filter_length_le |]. split; [| contradiction].
    intros Hlen. exfalso. apply Hdis.
    assert (Hall' : incl (nodes g) (filter (fun v => mem v largest) (nodes g))).
    { apply NoDup_length_incl.
      - apply NoDup_filter. apply Hwf.
      - lia.
      - intros x Hx. now apply filter_In in Hx. }
    pose proof Hcomp as [_ [v0 [_ Hr]]].
    assert (Hin : forall u, In u (nodes g) -> reach g v0 u).
    { intros u Hu. apply Hr. apply Hall' in Hu. apply filter_In in Hu.
      now apply mem_In. }
    intros u v Hu Hv. apply reach_trans with (v := v0).
    + apply reach_sym; [apply Hwf | apply Hwf | now apply Hin].
    + now apply Hin.
Qed.

Lemma reader_drops_nodes_witness :
  well_formed Inputs.two_parts
  /\ nodes Inputs.two_parts <> []
  /\ exists nw,
       read_max_connected_component (fun _ _ => Inputs.two_parts) "g.edges" 0
       = Returns nw
       /\ length (nodes (graph nw)) <= length (nodes Inputs.two_parts)
       /\ (length (nodes (graph nw)) = length (nodes Inputs.two_parts)
           <-> connected Inputs.two_parts).
Proof.
  split; [exact two_parts_well_formed |]. split; [discriminate |].
  apply (reader_drops_nodes (fun _ _ => Inputs.two_parts) "g.edges" 0).
  - exact two_parts_well_formed.
  - discriminate.
Defined.

(** X7. On a disconnected graph the component kept is the first of the
    largest in the order in which [nx.connected_components] yields them:
    every component yielded before it is strictly smaller, none yielded
    after it is larger. *)
Theorem reader_takes_first_largest (reader : string -> nat -> Graph)
  (path : string) (header_length : nat) :
  let g := reader path header_length in
  well_formed g ->
  nodes g <> [] ->
  ~ connected g ->
  exists cs pre largest post,
    connected_components g = Returns cs
    /\ cs = pre ++ largest :: post
    /\ (forall c, In c pre -> length c < length largest)
    /\ (forall c, In c post -> length c <= length largest)
    /\ read_max_connected_component reader path header_length
       = Returns (network (subgraph g largest)).
Proof.
  intros g Hwf Hne Hdis.
  destruct (reader_cases reader path header_length Hwf Hne)
    as [[Hconn _] | [_ (cs & pre & largest & post & Hcc & _ & Hcs & Hpre & Hpost & Hret)]].
  - contradiction.
  - exists cs, pre, largest, post. repeat split; assumption.
Qed.

Lemma reader_takes_first_largest_witness :
  well_formed Inputs.two_parts
  /\ nodes Inputs.two_parts <> []
  /\ ~ connected Inputs.two_parts
  /\ exists cs pre largest post,
       connected_components Inputs.two_parts = Returns cs
       /\ cs = pre ++ largest :: post
       /\ (forall c, In c pre -> length c < length largest)
       /\ (forall c, In c post -> length c <= length largest)
       /\ read_max_connected_component (fun _ _ => Inputs.two_parts) "g.edges" 0
          = Returns (network (subgraph Inputs.two_parts largest)).
Proof.
  split; [exact two_parts_well_formed |]. split; [discriminate |].
  split; [exact two_parts_disconnected |].
  apply (reader_takes_first_largest (fun _ _ => Inputs.two_parts) "g.edges" 0).
  - exact two_parts_well_formed.
  - discriminate.
  - exact two_parts_disconnected.
Defined.

Lemma components_loop_partition (g : Graph) :
  well_formed g ->
  forall vs seen,
    incl vs (nodes g) ->
    (forall x y, In x seen -> reach g x y -> In y seen) ->
    exists cs,
      components_loop g vs seen = Some cs
      /\ NoDup (concat cs)
      /\ forall v, In v (concat cs)
                   <-> ~ In v seen /\ exists u, In u vs /\ reach g u v.
Proof.
  intros [Hnd Hc Hs]. induction vs as [| v rest IH]; intros seen Hvs Hseen.
  - exists []. split; [reflexivity |]. split; [constructor |].
    intros v. cbn. split; [intros [] | intros [_ [u [[] _]]]].
  - assert (Hrest : incl rest (nodes g)) by (intros x Hx; apply Hvs; now right).
    cbn [components_loop]. destruct (mem v seen) eqn:Hm.
    + apply mem_In in Hm.
      destruct (IH seen Hrest Hseen) as [cs [Hcs [Hndc Hin]]].
      exists cs. split; [assumption |]. split; [assumption |].
      intros x. rewrite Hin. split.
      * intros [Hx [u [Hu Hr]]]. split; [assumption |]. exists u. split; [now right | assumption].
      * intros [Hx [u [[<- | Hu] Hr]]].
        -- exfalso. apply Hx. eapply Hseen; eassumption.
        -- split; [assumption |]. now exists u.
    + apply mem_false in Hm.
      destruct (plain_bfs_component g v Hc (Hvs v (or_introl eq_refl)))
        as [c [Hb [[Hndv _] [_ Hr]]]].
      rewrite Hb.
      destruct (IH (seen ++ c) Hrest) as [cs [Hcs [Hndc Hin]]].
      { intros x y Hx Hxy. apply in_app_iff in Hx. apply in_app_iff.
        destruct Hx as [Hx | Hx]; [left; eapply Hseen; eassumption |].
        right. apply Hr. apply Hr in Hx. eapply reach_trans; eassumption. }
      rewrite Hcs. exists (c :: cs). split; [reflexivity |].
      cbn [concat]. split.
      * apply NoDup_app; [assumption | assumption |].
        intros x Hxc Hx. apply Hin in Hx. destruct Hx as [Hx _].
        apply Hx. apply in_app_iff. now right.
      * intros x. rewrite in_app_iff, Hin, in_app_iff. split.
        -- intros [Hx | [Hx [u [Hu Hux]]]].
           ++ apply Hr in Hx. split.
              ** intros Hxs. apply Hm. apply (Hseen x v Hxs).
                 now apply reach_sym.
              ** exists v. split; [now left | assumption].
           ++ split; [tauto |]. exists u. split; [now right | assumption].
        -- intros [Hx [u [[<- | Hu] Hux]]].
           ++ left. now apply Hr.
           ++ destruct (in_dec Nat.eq_dec x c) as [Hxc | Hxc]; [now left |].
              right. split; [tauto |]. now exists u.
Qed.

(** X8. The components that [nx.connected_components] yields partition
    the nodes: each is a connected component, and listed one after the
    other they are the nodes of the graph, each once. *)
Theorem components_partition (g : Graph) :
  well_formed g ->
  exists cs,
    connected_components g = Returns cs
    /\ Forall (is_component g) cs
    /\ Permutation (concat cs) (nodes g).
Proof.
  intros Hwf. pose proof Hwf as [Hnd Hc Hs].
  destruct (components_loop_partition g Hwf (nodes g) [] (incl_refl _))
    as [cs [Hcs [Hndc Hin]]]; [intros x y [] |].
  destruct (connected_components_spec g Hc) as [cs' [Hcs' [Hall _]]].
  unfold connected_components in *. rewrite Hcs in *. injection Hcs' as <-.
  exists cs. split; [reflexivity |]. split; [assumption |].
  apply NoDup_Permutation; try assumption.
  intros x. rewrite Hin. split.
  - intros [_ [u [Hu Hr]]]. now apply (reach_in_nodes g u x Hc).
  - intros Hx. split; [intros [] |]. exists x. split; [assumption |].
    now apply reach_refl.
Qed.

Lemma components_partition_witness :
  well_formed Inputs.two_parts
  /\ exists cs,
       connected_components Inputs.two_parts = Returns cs
       /\ Forall (is_component Inputs.two_parts) cs
       /\ Permutation (concat cs) (nodes Inputs.two_parts).
Proof.
  split; [exact two_parts_well_formed |].
  exact (components_partition Inputs.two_parts two_parts_well_formed).
Defined.

End GraphMore.

(* ===================================================================== *)
(** ** Facts about the distance cache *)
(* ===================================================================== *)

Module DistanceFacts.
Import Py Graphs Covering GraphFacts.

Lemma row_mem_keys (v : node) (seen : DistRow) :
  row_mem v seen = mem v (map fst seen).
Proof.
  unfold row_mem, mem. induction seen as [| e seen IH]; simpl; [reflexivity |].
  rewrite IH. f_equal. apply Nat.eqb_sym.
Qed.

(** The level-recording search visits the nodes that [_plain_bfs]
    visits, in the same order. *)
Lemma visit_level_length_keys (g : Graph) (level : nat) (this : list node) :
  forall seen next seen' next',
    visit_level_length g level this seen next = (seen', next') ->
    visit_level g this (map fst seen) next = (map fst seen', next').
Proof.
  induction this as [| v rest IH]; intros seen next seen' next' H; simpl in *.
  - now injection H as <- <-.
  - rewrite <- row_mem_keys. destruct (row_mem v seen).
    + now apply IH.
    + apply IH in H. now rewrite map_app in H.
Qed.

Lemma length_loop_keys (g : Graph) (fuel : nat) :
  forall level seen next,
    option_map (map fst) (length_loop fuel g level seen next)
    = bfs_loop fuel g (map fst seen) next.
Proof.
  induction fuel as [| fuel IH]; intros level seen next.
  - destruct next; reflexivity.
  - destruct next as [| x next]; [reflexivity |].
    change (length_loop (S fuel) g level seen (x :: next))
      with (let '(s', n') := visit_level_length g level (x :: next) seen [] in
            length_loop fuel g (S level) s' n').
    change (bfs_loop (S fuel) g (map fst seen) (x :: next))
      with (let '(s', n') := visit_level g (x :: next) (map fst seen) [] in
            bfs_loop fuel g s' n').
    destruct (visit_level_length g level (x :: next) seen []) as [s' n'] eqn:Hv.
    rewrite (visit_level_length_keys _ _ _ _ _ _ _ Hv). apply IH.
Qed.

Lemma single_source_keys (g : Graph) (s : node) :
  option_map (map fst) (single_source_shortest_path_length g s) = plain_bfs g s.
Proof. apply length_loop_keys. Qed.

Lemma row_mem_In (v : node) (seen : DistRow) :
  row_mem v seen = true <-> In v (map fst seen).
Proof. rewrite row_mem_keys. apply mem_In. Qed.

Lemma walk_reach (g : Graph) (u v : node) (n : nat) :
  walk g u v n -> reach g u v.
Proof.
  intros H. induction H as [v Hv | u v w n Huv IH Hw].
  - now apply reach_refl.
  - eapply reach_step; eassumption.
Qed.

Lemma walk_zero (g : Graph) (u v : node) : walk g u v 0 -> u = v.
Proof. intros H. now inversion H. Qed.

Lemma walk_start (g : Graph) (u v : node) (n : nat) :
  walk g u v n -> In u (nodes g).
Proof. intros H. induction H; assumption. Qed.

(** The distance from a node to itself is 0, and only to itself. *)
Lemma shortest_zero (g : Graph) (u v : node) (x : nat) :
  shortest g u v x -> (x = 0 <-> u = v).
Proof.
  intros [Hw Hmin]. split.
  - intros ->. now apply walk_zero in Hw.
  - intros ->. pose proof (walk_start g v v x Hw) as Hv.
    specialize (Hmin 0 (walk_here g v Hv)). lia.
Qed.

Lemma shortest_unique (g : Graph) (u v : node) (x y : nat) :
  shortest g u v x -> shortest g u v y -> x = y.
Proof.
  intros [Hx Hminx] [Hy Hminy]. specialize (Hminx y Hy). specialize (Hminy x Hx). lia.
Qed.

(** The entries of [seen] after a sweep: the old ones, and the nodes of
    the level that were not seen, at this level. *)
Lemma sweep_rows (g : Graph) (level : nat) (this : list node) :
  forall seen next seen' next',
    visit_level_length g level this seen next = (seen', next') ->
    forall k l,
      In (k, l) seen'
      <-> In (k, l) seen \/ (l = level /\ In k this /\ ~ In k (map fst seen)).
Proof.
  induction this as [| v rest IH]; intros seen next seen' next' H k l; simpl in H.
  - injection H as <- <-. simpl. tauto.
  - destruct (row_mem v seen) eqn:Hm.
    + apply row_mem_In in Hm. rewrite (IH _ _ _ _ H k l). simpl.
      split; [tauto |]. intros [Hin | (Hl & [<- | Hk] & Hn)]; tauto.
    + assert (Hv : ~ In v (map fst seen)).
      { intros Hin. apply row_mem_In in Hin. congruence. }
      rewrite (IH _ _ _ _ H k l), map_app, !in_app_iff. simpl. split.
      * intros [[Hin | [Heq | []]] | (Hl & Hk & Hn)].
        -- now left.
        -- injection Heq as <- <-. right. tauto.
        -- right. tauto.
      * intros [Hin | (Hl & [<- | Hk] & Hn)].
        -- tauto.
        -- subst l. left. right. now left.
        -- destruct (Nat.eq_dec k v) as [-> | Hne].
           ++ subst l. left. right. now left.
           ++ right. intuition congruence.
Qed.

Section Levels.

Variable g : Graph.
Variable s : node.

Lemma levels_inv_start : In s (nodes g) -> levels_inv g s 0 [] [s].
Proof.
  intros Hs. constructor.
  - intros k l [].
  - intros k n _ Hn. lia.
  - intros k [<- | []]. now apply walk_here.
  - intros k [Hw _]. apply walk_zero in Hw. now left.
Qed.

(** One sweep takes the invariant from a level to the next. *)
Lemma levels_inv_step (level : nat) (seen : DistRow) (next : list node)
  (seen' : DistRow) (next' : list node) :
  levels_inv g s level seen next ->
  visit_level_length g level next seen [] = (seen', next') ->
  levels_inv g s (S level) seen' next'.
Proof.
  intros [Hsound Hcomplete Hwalk Hnext] Hv.
  pose proof (sweep_rows g level next _ _ _ _ Hv) as Hrows.
  pose proof (visit_level_next g next _ _ _ _
                (visit_level_length_keys g level next _ _ _ _ Hv)) as Hfrontier.
  (* a node of the level that is not yet seen is at distance [level] *)
  assert (Hfresh : forall k, walk g s k level -> ~ In k (map fst seen) ->
                             shortest g s k level).
  { intros k Hk Hn. split; [assumption |]. intros n Hkn.
    destruct (le_lt_dec level n) as [Hle | Hlt]; [assumption |].
    exfalso. apply Hn. eapply Hcomplete; eassumption. }
  assert (Hkeys : forall k, In k (map fst seen') <->
                            In k (map fst seen) \/ In k next).
  { intros k. rewrite (visit_level_seen g next _ _ _ _
                         (visit_level_length_keys g level next _ _ _ _ Hv) k).
    tauto. }
  constructor.
  - intros k l Hkl. apply Hrows in Hkl.
    destruct Hkl as [Hin | (-> & Hk & Hn)].
    + destruct (Hsound k l Hin) as [Hlt Hsh]. split; [lia | assumption].
    + split; [lia |]. apply Hfresh; [now apply Hwalk | assumption].
  - intros k n Hkn Hn. apply Hkeys.
    destruct (in_dec Nat.eq_dec k (map fst seen)) as [Hin | Hnin]; [now left |].
    right. apply Hnext.
    destruct (Nat.eq_dec n level) as [-> | Hne].
    + now apply Hfresh.
    + exfalso. apply Hnin. apply (Hcomplete k n Hkn). lia.
  - intros k Hk. apply Hfrontier in Hk.
    destruct Hk as [[] | [v [Hv' [Hn Hk]]]].
    apply walk_step with (v := v); [| assumption].
    apply Hwalk. apply Hkeys in Hv'. tauto.
  - intros k [Hk Hmin]. inversion Hk as [| u p w n Hp Hadj]; subst.
    assert (Hpn : ~ In p (map fst seen)).
    { intros Hin. apply in_map_iff in Hin. destruct Hin as [[p' l] [Hfst Hin]].
      simpl in Hfst. subst p'. destruct (Hsound p l Hin) as [Hlt [Hpl _]].
      specialize (Hmin (S l) (walk_step g s p k l Hpl Hadj)). lia. }
    apply Hfrontier. right. exists p. split; [| split; assumption].
    apply Hkeys. right. apply Hnext. split; [assumption |].
    intros n Hpn'. specialize (Hmin (S n) (walk_step g s p k n Hpn' Hadj)). lia.
Qed.

Lemma length_loop_levels (fuel : nat) :
  forall level seen next row,
    levels_inv g s level seen next ->
    length_loop fuel g level seen next = Some row ->
    forall k l, In (k, l) row -> shortest g s k l.
Proof.
  induction fuel as [| fuel IH]; intros level seen next row Hinv H k l Hkl.
  - destruct next; [| discriminate]. injection H as <-.
    now apply (lv_sound _ _ _ _ _ Hinv).
  - destruct next as [| x next].
    + injection H as <-. now apply (lv_sound _ _ _ _ _ Hinv).
    + change (length_loop (S fuel) g level seen (x :: next))
        with (let '(s', n') := visit_level_length g level (x :: next) seen [] in
              length_loop fuel g (S level) s' n') in H.
      destruct (visit_level_length g level (x :: next) seen []) as [s' n'] eqn:Hv.
      eapply IH; [eapply levels_inv_step | |]; eassumption.
Qed.

End Levels.

(** The single-source search returns on a graph whose neighbours are
    nodes; its keys are the nodes joined to the source, and the value at
    a key is the distance from the source. *)
Lemma single_source_spec (g : Graph) (s : node) :
  closed_graph g -> In s (nodes g) ->
  exists row, single_source_shortest_path_length g s = Some row
              /\ NoDup (map fst row)
              /\ (forall w, In w (map fst row) <-> reach g s w)
              /\ (forall k l, In (k, l) row -> shortest g s k l).
Proof.
  intros Hc Hs. destruct (plain_bfs_spec g Hc s Hs) as [c [Hb [Hnd Hr]]].
  pose proof (single_source_keys g s) as Hk. rewrite Hb in Hk.
  destruct (single_source_shortest_path_length g s) as [row |] eqn:Hrow;
    [| discriminate].
  simpl in Hk. injection Hk as Hk. exists row. rewrite Hk.
  split; [reflexivity |]. split; [assumption |]. split; [assumption |].
  apply (length_loop_levels g s (S (length g)) 0 [] [s]); [| exact Hrow].
  now apply levels_inv_start.
Qed.

Lemma all_pairs_loop_spec (g : Graph) :
  closed_graph g ->
  forall vs, incl vs (nodes g) ->
    exists d, all_pairs_loop g vs = Some d
              /\ map fst d = vs
              /\ forall e, In e d ->
                   single_source_shortest_path_length g (fst e) = Some (snd e).
Proof.
  intros Hc. induction vs as [| n rest IH]; intros Hvs.
  - exists []. split; [reflexivity |]. split; [reflexivity |]. intros e [].
  - destruct (single_source_spec g n Hc (Hvs n (or_introl eq_refl)))
      as [row [Hrow _]].
    destruct IH as [d [Hd [Hkeys Hrows]]].
    { intros x Hx. apply Hvs. now right. }
    exists ((n, row) :: d). simpl. rewrite Hrow, Hd. split; [reflexivity |].
    split; [simpl; now rewrite Hkeys |].
    intros e [<- | He]; [assumption | now apply Hrows].
Qed.

(** Computing the distance cache returns. *)
Lemma all_pairs_returns (g : Graph) :
  closed_graph g ->
  exists d, all_pairs_shortest_path_length g = Returns d
            /\ map fst d = nodes g
            /\ forall e, In e d ->
                 single_source_shortest_path_length g (fst e) = Some (snd e).
Proof.
  intros Hc. unfold all_pairs_shortest_path_length.
  destruct (all_pairs_loop_spec g Hc (nodes g) (incl_refl _)) as [d [Hd H]].
  rewrite Hd. exists d. split; [reflexivity | assumption].
Qed.

Lemma find_key {B : Type} (k : node) (l : list (node * B)) :
  In k (map fst l) ->
  exists e, find (fun e => fst e =? k) l = Some e.
Proof.
  induction l as [| e l IH]; [intros [] |].
  cbn [find map In]. destruct (fst e =? k) eqn:He.
  - intros _. now exists e.
  - intros [Heq | Hin]; [| now apply IH].
    apply Nat.eqb_neq in He. contradiction.
Qed.

Lemma find_key_some {B : Type} (k : node) (l : list (node * B)) (e : node * B) :
  find (fun e => fst e =? k) l = Some e -> In e l /\ fst e = k.
Proof.
  intros H. apply find_some in H. destruct H as [Hin Heq].
  apply Nat.eqb_eq in Heq. now split.
Qed.

Lemma row_max_bound (row : DistRow) (e : node * nat) :
  In e row -> snd e <= row_max row.
Proof.
  induction row as [| e' row IH]; simpl; [intros [] |].
  intros [<- | He]; [lia |]. specialize (IH He). lia.
Qed.

Lemma diameter_of_bound (d : DistDict) (e : node * DistRow) :
  In e d -> row_max (snd e) <= diameter_of d.
Proof.
  induction d as [| e' d IH]; simpl; [intros [] |].
  intros [<- | He]; [lia |]. specialize (IH He). lia.
Qed.

Section Oracle.

Variable g : Graph.
Variable d : DistDict.
Hypothesis g_closed : closed_graph g.
Hypothesis d_computed : all_pairs_shortest_path_length g = Returns d.

Lemma oracle_rows :
  map fst d = nodes g
  /\ forall e, In e d ->
       single_source_shortest_path_length g (fst e) = Some (snd e).
Proof.
  destruct (all_pairs_returns g g_closed) as [d' [Hd' H]].
  rewrite d_computed in Hd'. injection Hd' as <-. exact H.
Qed.

(** A cached distance is the length of a shortest walk; so it is 0
    exactly between a node and itself; and it is at most the diameter. *)
Lemma dist_get_sound (u v : node) (x : nat) :
  dist_get d u v = Some x ->
  shortest g u v x /\ (x = 0 <-> u = v) /\ x <= diameter_of d.
Proof.
  destruct oracle_rows as [Hkeys Hrows].
  unfold dist_get, row_get.
  destruct (find (fun e => fst e =? u) d) as [e |] eqn:He; [| discriminate].
  apply find_key_some in He. destruct He as [Hin Hfst].
  destruct (find (fun e0 => fst e0 =? v) (snd e)) as [e' |] eqn:He';
    [| discriminate].
  apply find_key_some in He'. destruct He' as [Hin' Hfst'].
  simpl. intros Hx. injection Hx as <-.
  assert (Hu : In u (nodes g)).
  { rewrite <- Hkeys, <- Hfst. now apply in_map. }
  destruct (single_source_spec g u g_closed Hu) as [row [Hrow [_ [_ Hz]]]].
  pose proof (Hrows e Hin) as Hrow'. rewrite Hfst, Hrow in Hrow'.
  injection Hrow' as ->.
  assert (Hsh : shortest g u v (snd e')).
  { apply Hz. destruct e' as [k l]. simpl in *. now subst k. }
  split; [assumption |]. split; [now apply (shortest_zero g) |].
  apply Nat.le_trans with (m := row_max (snd e)).
  - now apply row_max_bound.
  - now apply diameter_of_bound.
Qed.

(** Every pair of joined nodes has a cached distance. *)
Lemma dist_get_complete (u v : node) :
  reach g u v -> exists x, dist_get d u v = Some x.
Proof.
  intros Hreach. destruct oracle_rows as [Hkeys Hrows].
  assert (Hu : In u (nodes g)) by now apply (reach_in_nodes g u v).
  unfold dist_get, row_get.
  destruct (find_key u d) as [e He]; [now rewrite Hkeys |].
  rewrite He. apply find_key_some in He. destruct He as [Hin Hfst].
  destruct (single_source_spec g u g_closed Hu) as [row [Hrow [_ [Hr _]]]].
  pose proof (Hrows e Hin) as Hrow'. rewrite Hfst, Hrow in Hrow'.
  injection Hrow' as ->.
  destruct (find_key v (snd e)) as [e' He']; [now apply Hr |].
  rewrite He'. now exists (snd e').
Qed.



End Oracle.

End DistanceFacts.

(** * The distance cache as a table of graph distances *)

Module DistanceMore.
Import Py Graphs GraphFacts DistanceFacts.

Lemma walk_in_nodes (g : Graph) (u v : node) (n : nat) :
  closed_graph g -> walk g u v n -> In v (nodes g).
Proof.
  intros Hc Hw. destruct Hw as [v Hv | u v w n _ Hin]; [assumption |].
  now apply (Hc v).
Qed.

(** Walks compose. *)
Lemma walk_concat (g : Graph) (u v w : node) (n m : nat) :
  walk g u v n -> walk g v w m -> walk g u w (n + m).
Proof.
  intros Huv Hvw. induction Hvw as [v Hv | v x w m Hvx IH Hin].
  - now rewrite Nat.add_0_r.
  - rewrite Nat.add_succ_r. apply walk_step with (v := x); [now apply IH | assumption].
Qed.

(** On a graph whose adjacency is symmetric a walk can be taken backwards. *)
Lemma walk_reverse (g : Graph) (u v : node) (n : nat) :
  closed_graph g -> symmetric_graph g -> walk g u v n -> walk g v u n.
Proof.
  intros Hc Hs Hw. induction Hw as [v Hv | u v w n Huv IH Hin].
  - now constructor.
  - change (S n) with (1 + n).
    apply walk_concat with (v := v); [| assumption].
    apply walk_step with (v := w).
    + constructor. now apply (Hc v).
    + now apply Hs.
Qed.

Lemma shortest_reverse (g : Graph) (u v : node) (x : nat) :
  closed_graph g -> symmetric_graph g -> shortest g u v x -> shortest g v u x.
Proof.
  intros Hc Hs [Hw Hmin]. split; [now apply walk_reverse |].
  intros n Hn. apply Hmin. now apply walk_reverse.
Qed.

(** X15. On a graph whose neighbours are all nodes,
    [nx.all_pairs_shortest_path_length] returns, and the dict made of it
    (the cache [boxing_all] stores in [network.shortest_paths]) is exact:
    it has an entry [d[u][v] = x] if and only if [x] is the number of
    edges of a shortest walk from [u] to [v]; so a pair has no entry
    exactly when [v] cannot be reached from [u], and no entry is an
    overestimate. *)
Theorem cache_is_exact (g : Graph) :
  closed_graph g ->
  exists d,
    all_pairs_shortest_path_length g = Returns d
    /\ (forall u v x, dist_get d u v = Some x <-> shortest g u v x)
    /\ (forall u v, dist_get d u v = None <-> ~ reach g u v).
Proof.
  intros Hc. destruct (all_pairs_returns g Hc) as [d [Hd _]].
  exists d. split; [assumption |].
  assert (Hexact : forall u v x, dist_get d u v = Some x <-> shortest g u v x).
  { intros u v x. split.
    - intros Hx. now apply (dist_get_sound g d Hc Hd u v x).
    - intros Hsh. pose proof Hsh as [Hw _]. apply walk_reach in Hw.
      destruct (dist_get_complete g d Hc Hd u v Hw) as [y Hy].
      pose proof (dist_get_sound g d Hc Hd u v y Hy) as [Hsh' _].
      now rewrite (shortest_unique g u v x y Hsh Hsh'). }
  split; [exact Hexact |].
  intros u v. split.
  - intros Hnone Hreach.
    destruct (dist_get_complete g d Hc Hd u v Hreach) as [y Hy]. congruence.
  - intros Hno. destruct (dist_get d u v) as [x |] eqn:Hx; [| reflexivity].
    exfalso. apply Hno. apply Hexact in Hx. destruct Hx as [Hw _].
    now apply walk_reach in Hw.
Qed.

Lemma two_parts_closed : closed_graph Inputs.two_parts.
Proof. apply wf_closed. apply from_edges_well_formed. Qed.

Lemma cache_is_exact_witness :
  closed_graph Inputs.two_parts
  /\ exists d,
       all_pairs_shortest_path_length Inputs.two_parts = Returns d
       /\ (forall u v x, dist_get d u v = Some x <-> shortest Inputs.two_parts u v x)
       /\ (forall u v, dist_get d u v = None <-> ~ reach Inputs.two_parts u v).
Proof.
  split; [exact two_parts_closed |].
  apply (cache_is_exact Inputs.two_parts). exact two_parts_closed.
Defined.

(** On a well-formed graph the cache reads the same in both directions. *)
Lemma dist_get_symmetric (g : Graph) (d : DistDict) (u v : node) :
  well_formed g ->
  all_pairs_shortest_path_length g = Returns d ->
  dist_get d u v = dist_get d v u.
Proof.
  intros Hwf Hd.
  pose proof (wf_closed g Hwf) as Hc. pose proof (wf_symmetric g Hwf) as Hs.
  assert (Hhalf : forall a b x, dist_get d a b = Some x -> dist_get d b a = Some x).
  { intros a b x Hx.
    pose proof (dist_get_sound g d Hc Hd a b x Hx) as [Hsh _].
    apply (shortest_reverse g a b x Hc Hs) in Hsh.
    pose proof Hsh as [Hw _]. apply walk_reach in Hw.
    destruct (dist_get_complete g d Hc Hd b a Hw) as [y Hy].
    pose proof (dist_get_sound g d Hc Hd b a y Hy) as [Hsh' _].
    now rewrite (shortest_unique g b a x y Hsh Hsh'). }
  destruct (dist_get d u v) as [x |] eqn:Hx.
  - symmetry. now apply Hhalf.
  - destruct (dist_get d v u) as [y |] eqn:Hy; [| reflexivity].
    apply Hhalf in Hy. congruence.
Qed.

(** X16. On a well-formed graph the cache is a metric table: an entry
    is 0 exactly on the diagonal; [d[u][v]] and [d[v][u]] are the same
    (both missing, or the same number); and entries obey the triangle
    inequality, where two entries [d[u][v]] and [d[v][w]] exist so does
    [d[u][w]]. *)
Theorem cache_is_metric (g : Graph) (d : DistDict) :
  well_formed g ->
  all_pairs_shortest_path_length g = Returns d ->
  (forall u v x, dist_get d u v = Some x -> (x = 0 <-> u = v))
  /\ (forall u v, dist_get d u v = dist_get d v u)
  /\ (forall u v w x y,
        dist_get d u v = Some x -> dist_get d v w = Some y ->
        exists z, dist_get d u w = Some z /\ z <= x + y).
Proof.
  intros Hwf Hd.
  pose proof (wf_closed g Hwf) as Hc. pose proof (wf_symmetric g Hwf) as Hs.
  assert (Hhalf : forall u v x, dist_get d u v = Some x -> dist_get d v u = Some x).
  { intros u v x Hx.
    pose proof (dist_get_sound g d Hc Hd u v x Hx) as [Hsh _].
    apply (shortest_reverse g u v x Hc Hs) in Hsh.
    pose proof Hsh as [Hw _]. apply walk_reach in Hw.
    destruct (dist_get_complete g d Hc Hd v u Hw) as [y Hy].
    pose proof (dist_get_sound g d Hc Hd v u y Hy) as [Hsh' _].
    now rewrite (shortest_unique g v u x y Hsh Hsh'). }
  split; [| split].
  - intros u v x Hx. now apply (dist_get_sound g d Hc Hd u v x).
  - intros u v.
    destruct (dist_get d u v) as [x |] eqn:Hx.
    + symmetry. now apply Hhalf.
    + destruct (dist_get d v u) as [y |] eqn:Hy; [| reflexivity].
      apply Hhalf in Hy. congruence.
  - intros u v w x y Hx Hy.
    pose proof (dist_get_sound g d Hc Hd u v x Hx) as [[Hwx _] _].
    pose proof (dist_get_sound g d Hc Hd v w y Hy) as [[Hwy _] _].
    pose proof (walk_concat g u v w x y Hwx Hwy) as Hwz.
    pose proof Hwz as Hr. apply walk_reach in Hr.
    destruct (dist_get_complete g d Hc Hd u w Hr) as [z Hz].
    exists z. split; [assumption |].
    pose proof (dist_get_sound g d Hc Hd u w z Hz) as [[_ Hmin] _].
    now apply Hmin.
Qed.

Lemma cache_is_metric_witness :
  well_formed Inputs.two_parts
  /\ all_pairs_shortest_path_length Inputs.two_parts
     = Returns MoreInputs.two_parts_cache
  /\ (forall u v x, dist_get MoreInputs.two_parts_cache u v = Some x ->
                    (x = 0 <-> u = v))
  /\ (forall u v, dist_get MoreInputs.two_parts_cache u v
                  = dist_get MoreInputs.two_parts_cache v u)
  /\ (forall u v w x y,
        dist_get MoreInputs.two_parts_cache u v = Some x ->
        dist_get MoreInputs.two_parts_cache v w = Some y ->
        exists z, dist_get MoreInputs.two_parts_cache u w = Some z /\ z <= x + y).
Proof.
  split; [apply from_edges_well_formed |]. split; [vm_compute; reflexivity |].
  apply (cache_is_metric Inputs.two_parts MoreInputs.two_parts_cache).
  - apply from_edges_well_formed.
  - vm_compute; reflexivity.
Defined.

End DistanceMore.

(* ===================================================================== *)
(** ** Facts about diameter-bound coverings at the two ends of the size range *)
(* ===================================================================== *)

Module CoveringFacts.
Import Py Graphs Covering GraphFacts DistanceFacts DistanceMore.

(** *** Box identifiers *)

Lemma ids_distinct (p : Partition) :
  NoDup (map fst p) ->
  (forall u v i, In (u, i) p -> In (v, i) p -> u = v) ->
  NoDup (map snd p).
Proof.
  induction p as [| [u i] rest IH]; intros Hnd Hsame; cbn [map snd].
  - constructor.
  - cbn [map fst] in Hnd. apply NoDup_cons_iff in Hnd. destruct Hnd as [Hu Hnd].
    constructor.
    + intros Hi. apply in_map_iff in Hi. destruct Hi as [[v j] [Hj Hin]].
      cbn [snd] in Hj. subst j. apply Hu.
      rewrite (Hsame u v i); [| now left | now right].
      apply in_map_iff. now exists (v, i).
    + apply IH; [assumption |].
      intros a b j Ha Hb. apply (Hsame a b j); now right.
Qed.

Lemma nodup_one (l : list nat) :
  l <> [] ->
  (length (nodup Nat.eq_dec l) = 1 <-> forall x y, In x l -> In y l -> x = y).
Proof.
  intros Hne. pose proof (NoDup_nodup Nat.eq_dec l) as Hnd.
  assert (Hin : forall x, In x (nodup Nat.eq_dec l) <-> In x l)
    by (intros x; apply nodup_In).
  destruct (nodup Nat.eq_dec l) as [| a [| b rest]]; cbn [length].
  - destruct l as [| x l]; [congruence |]. destruct (proj2 (Hin x)). now left.
  - split; [| reflexivity]. intros _ x y Hx Hy.
    apply Hin in Hx, Hy. destruct Hx as [<- | []], Hy as [<- | []]. reflexivity.
  - split; [discriminate |]. intros Hall. exfalso.
    assert (a = b) as ->.
    { apply Hall; apply Hin; [now left | right; now left]. }
    apply NoDup_cons_iff in Hnd. apply (proj1 Hnd). now left.
Qed.

Lemma entry_node (p : Partition) (u : node) (i : nat) :
  In (u, i) p -> In u (map fst p).
Proof. intros H. apply in_map_iff. now exists (u, i). Qed.

Lemma id_entry (p : Partition) (i : nat) :
  In i (map snd p) <-> exists u, In (u, i) p.
Proof.
  split.
  - intros H. apply in_map_iff in H. destruct H as [[u j] [Hj Hin]].
    cbn [snd] in Hj. subst j. now exists u.
  - intros [u H]. apply in_map_iff. now exists (u, i).
Qed.

(** *** Valid partitions at the two ends *)

Section Ends.

Variable g : Graph.
Variable d : DistDict.
Hypothesis g_closed : closed_graph g.
Hypothesis d_computed : all_pairs_shortest_path_length g = Returns d.

(** With a bound of 0 or less, only a node itself is near it. *)
Lemma near_zero (b : Z) (u v : node) :
  (b <= 0)%Z -> near d b u v = true -> u = v.
Proof.
  intros Hb. unfold near.
  destruct (dist_get d u v) as [x |] eqn:Hx; [| discriminate].
  intros Hle. apply Z.leb_le in Hle.
  destruct (dist_get_sound g d g_closed d_computed u v x Hx) as [_ [Hzero _]].
  apply Hzero. lia.
Qed.

(** With a bound that reaches the diameter, joined nodes are near. *)
Lemma near_diameter (b : Z) (u v : node) :
  (Z.of_nat (diameter_of d) <= b)%Z -> reach g u v -> near d b u v = true.
Proof.
  intros Hb Hr. unfold near.
  destruct (dist_get_complete g d g_closed d_computed u v Hr) as [x Hx].
  rewrite Hx. apply Z.leb_le.
  destruct (dist_get_sound g d g_closed d_computed u v x Hx) as [_ [_ Hle]]. lia.
Qed.

(** Bound 0: a valid partition has as many boxes as there are nodes. *)
Lemma valid_singletons (b : Z) (p : Partition) :
  (b <= 0)%Z -> NoDup (nodes g) ->
  valid_partition d b (nodes g) p ->
  box_count p = length (nodes g).
Proof.
  intros Hb Hnd [Hperm Hnear].
  assert (Hfst : NoDup (map fst p)).
  { eapply Permutation_NoDup; [apply Permutation_sym |]; eassumption. }
  assert (Hsnd : NoDup (map snd p)).
  { apply ids_distinct; [assumption |]. intros u v i Hu Hv.
    destruct (Nat.eq_dec u v) as [| Hne]; [assumption |].
    apply (near_zero b u v Hb). now apply (Hnear u v i). }
  unfold box_count, box_ids. rewrite (nodup_fixed_point Nat.eq_dec Hsnd).
  rewrite length_map, <- (Permutation_length Hperm). now rewrite length_map.
Qed.

(** Bound at least the diameter, on a connected graph: a valid
    partition is a single box exactly when no two of its boxes could
    be joined. *)
Lemma valid_one_box (b : Z) (p : Partition) :
  (Z.of_nat (diameter_of d) <= b)%Z ->
  connected g -> nodes g <> [] ->
  valid_partition d b (nodes g) p ->
  (box_count p = 1 <-> unjoinable d b p).
Proof.
  intros Hb Hconn Hne [Hperm _].
  assert (Hp : map snd p <> []).
  { intros Hnil. apply Hne. apply Permutation_nil.
    destruct p; [exact Hperm | discriminate]. }
  unfold box_count, box_ids. rewrite (nodup_one (map snd p) Hp). split.
  - intros Hall i j Hi Hj Hij. exfalso. apply Hij. now apply Hall.
  - intros Hun i j Hi Hj. destruct (Nat.eq_dec i j) as [| Hij]; [assumption |].
    destruct (Hun i j Hi Hj Hij) as (u & v & Hu & Hv & Hfar). exfalso.
    apply entry_node in Hu, Hv.
    rewrite (near_diameter b u v Hb) in Hfar; [discriminate |].
    apply Hconn; eapply Permutation_in; eassumption.
Qed.

End Ends.

(** *** Greedy coloring keeps the invariant and joins what it can *)

Section Greedy.

Variable d : DistDict.
Variable b : Z.
Hypothesis near_sym : forall u v, near d b u v = near d b v u.

Lemma place_all (Q : list node -> Prop) (v : node) (boxes : list (list node)) :
  (forall box, Q box -> Q (box ++ [v])) -> Q [v] ->
  Forall Q boxes -> Forall Q (place d b v boxes).
Proof.
  intros Hgrow Hnew. induction boxes as [| box rest IH]; intros Hall; cbn [place].
  - now constructor.
  - apply Forall_cons_iff in Hall. destruct Hall as [Hbox Hrest].
    destruct (fits d b v box); constructor; auto.
Qed.

Lemma place_within (v : node) (boxes : list (list node)) :
  Forall (within_box d b) boxes -> Forall (within_box d b) (place d b v boxes).
Proof.
  induction boxes as [| box rest IH]; intros Hall; cbn [place].
  - constructor; [| constructor]. intros x y [<- | []] [<- | []] Hxy. congruence.
  - apply Forall_cons_iff in Hall. destruct Hall as [Hbox Hrest].
    destruct (fits d b v box) eqn:Hfits; constructor; auto.
    unfold fits in Hfits. rewrite forallb_forall in Hfits.
    intros x y Hx Hy Hxy. apply in_app_iff in Hx, Hy.
    destruct Hx as [Hx | [<- | []]], Hy as [Hy | [<- | []]].
    + now apply Hbox.
    + rewrite near_sym. now apply Hfits.
    + now apply Hfits.
    + congruence.
Qed.

Lemma apart_grows_left (v : node) (bi bj : list node) :
  apart d b bi bj -> apart d b (bi ++ [v]) bj.
Proof.
  intros (x & y & Hx & Hy & Hfar). exists x, y.
  split; [apply in_app_iff; now left |]. now split.
Qed.

Lemma apart_grows_right (v : node) (bi bj : list node) :
  apart d b bi bj -> apart d b bi (bj ++ [v]).
Proof.
  intros (x & y & Hx & Hy & Hfar). exists x, y.
  split; [assumption |]. split; [apply in_app_iff; now left | assumption].
Qed.

(** A node that does not fit a box is apart from it. *)
Lemma misfit_apart (v : node) (box : list node) :
  fits d b v box = false -> apart d b box [v].
Proof.
  unfold fits. intros Hfits.
  assert (Hex : exists m, In m box /\ near d b v m = false).
  { induction box as [| m rest IH]; [discriminate |].
    cbn [forallb] in Hfits. apply andb_false_iff in Hfits.
    destruct Hfits as [Hm | Hrest].
    - exists m. split; [now left | assumption].
    - destruct (IH Hrest) as [m' [Hin Hfar]]. exists m'. split; [now right | assumption]. }
  destruct Hex as [m [Hin Hfar]]. exists m, v.
  split; [assumption |]. split; [now left |]. now rewrite near_sym.
Qed.

Lemma place_apart (v : node) (boxes : list (list node)) :
  ForallOrdPairs (apart d b) boxes ->
  ForallOrdPairs (apart d b) (place d b v boxes).
Proof.
  induction 1 as [| box rest Hbox Hrest IH]; cbn [place].
  - constructor; constructor.
  - destruct (fits d b v box) eqn:Hfits; constructor.
    + eapply Forall_impl; [| exact Hbox]. intros bj. apply apart_grows_left.
    + assumption.
    + apply place_all; [apply apart_grows_right | now apply misfit_apart | assumption].
    + assumption.
Qed.

Lemma place_concat (v : node) (boxes : list (list node)) :
  Permutation (concat (place d b v boxes)) (concat boxes ++ [v]).
Proof.
  induction boxes as [| box rest IH]; cbn [place concat].
  - reflexivity.
  - destruct (fits d b v box); cbn [concat].
    + rewrite <- !app_assoc. apply Permutation_app_head.
      apply Permutation_app_comm.
    + rewrite <- app_assoc. now apply Permutation_app_head.
Qed.

(** What greedy coloring keeps true of its boxes, node after node. *)
Lemma greedy_fold (order : list node) :
  forall boxes,
    Forall (fun box => box <> []) boxes ->
    Forall (within_box d b) boxes ->
    ForallOrdPairs (apart d b) boxes ->
    let boxes' := fold_left (fun boxes v => place d b v boxes) order boxes in
    Forall (fun box => box <> []) boxes'
    /\ Forall (within_box d b) boxes'
    /\ ForallOrdPairs (apart d b) boxes'
    /\ Permutation (concat boxes') (concat boxes ++ order).
Proof.
  induction order as [| v rest IH]; intros boxes Hne Hin Hap; cbn [fold_left].
  - rewrite app_nil_r. repeat split; auto.
  - destruct (IH (place d b v boxes)) as (H1 & H2 & H3 & H4).
    + apply place_all; [| discriminate | assumption].
      intros box _ Hnil. now apply app_eq_nil in Hnil as [_ Hnil].
    + now apply place_within.
    + now apply place_apart.
    + repeat split; auto.
      rewrite H4. rewrite (place_concat v boxes). now rewrite <- app_assoc.
Qed.

Lemma greedy_boxes_inv (order : list node) :
  let boxes := greedy_boxes d b order in
  Forall (fun box => box <> []) boxes
  /\ Forall (within_box d b) boxes
  /\ ForallOrdPairs (apart d b) boxes
  /\ Permutation (concat boxes) order.
Proof.
  apply (greedy_fold order []); constructor.
Qed.

End Greedy.

(** *** From boxes to a partition *)

Lemma label_nodes (k : nat) (boxes : list (list node)) :
  map fst (label k boxes) = concat boxes.
Proof.
  revert k. induction boxes as [| box rest IH]; intros k; cbn [label concat map].
  - reflexivity.
  - rewrite map_app, map_map, IH. cbn [fst]. now rewrite map_id.
Qed.

Lemma label_entry (k : nat) (boxes : list (list node)) (u : node) (i : nat) :
  In (u, i) (label k boxes)
  <-> k <= i /\ exists box, nth_error boxes (i - k) = Some box /\ In u box.
Proof.
  revert k. induction boxes as [| box rest IH]; intros k; cbn [label].
  - split; [intros [] |]. intros [_ [box [Hnth _]]].
    now destruct (i - k) in Hnth.
  - rewrite in_app_iff, in_map_iff, IH. split.
    + intros [[v [Heq Hv]] | [Hle [box' [Hnth Hu]]]].
      * injection Heq as -> ->. split; [lia |]. exists box.
        rewrite Nat.sub_diag. now split.
      * split; [lia |]. exists box'.
        replace (i - k) with (S (i - S k)) by lia. now split.
    + intros [Hle [box' [Hnth Hu]]].
      destruct (Nat.eq_dec i k) as [-> | Hne].
      * left. rewrite Nat.sub_diag in Hnth. injection Hnth as ->. now exists u.
      * right. split; [lia |]. exists box'.
        replace (i - k) with (S (i - S k)) in Hnth by lia. now split.
Qed.

Lemma label_count (boxes : list (list node)) :
  Forall (fun box => box <> []) boxes ->
  box_count (label 0 boxes) = length boxes.
Proof.
  intros Hne. unfold box_count, box_ids.
  rewrite <- (length_seq (length boxes) 0).
  apply Permutation_length. apply NoDup_Permutation.
  - apply NoDup_nodup.
  - apply seq_NoDup.
  - intros i. rewrite nodup_In, id_entry, in_seq. split.
    + intros [u Hu]. apply label_entry in Hu. destruct Hu as [_ [box [Hnth _]]].
      rewrite Nat.sub_0_r in Hnth.
      assert (i < length boxes) by (apply nth_error_Some; congruence). lia.
    + intros [_ Hlt]. cbn in Hlt.
      destruct (nth_error boxes i) as [box |] eqn:Hnth;
        [| apply nth_error_None in Hnth; lia].
      rewrite Forall_forall in Hne.
      pose proof (Hne box (nth_error_In _ _ Hnth)) as Hbox.
      destruct box as [| u box]; [congruence |]. exists u.
      apply label_entry. split; [lia |]. exists (u :: box).
      rewrite Nat.sub_0_r. split; [assumption | now left].
Qed.

Lemma ordered_pairs_nth {A : Type} (R : A -> A -> Prop) (l : list A) :
  ForallOrdPairs R l ->
  forall i j a c, i < j -> nth_error l i = Some a -> nth_error l j = Some c -> R a c.
Proof.
  induction 1 as [| x l Hx Hl IH]; intros i j a c Hij Hi Hj.
  - now destruct i.
  - destruct j as [| j]; [lia |]. cbn [nth_error] in Hj.
    destruct i as [| i]; cbn [nth_error] in Hi.
    + injection Hi as ->. rewrite Forall_forall in Hx. apply Hx.
      now apply nth_error_In in Hj.
    + apply (IH i j); [lia | assumption | assumption].
Qed.

Lemma distances_returns (nw : Network) :
  closed_graph (graph nw) -> cache_consistent nw ->
  exists d, distances nw = Returns d
            /\ all_pairs_shortest_path_length (graph nw) = Returns d.
Proof.
  intros Hc Hcache. unfold distances.
  destruct (shortest_paths nw) as [d |] eqn:Hsp.
  - exists d. split; [reflexivity | now apply Hcache].
  - destruct (all_pairs_returns (graph nw) Hc) as [d [Hd _]].
    exists d. now split.
Qed.

(** Greedy coloring as section 4.2 describes it, in any node order and
    under either convention, is an algorithm of the lb family, and at
    every size it leaves no two boxes that could be joined: the node
    that opened the later box did not fit the earlier one. *)
Lemma greedy_in_lb_family (conv : Convention) (nw : Network) (order : list node) :
  well_formed (graph nw) ->
  cache_consistent nw ->
  Permutation order (nodes (graph nw)) ->
  lb_family conv nw (fun lb boxing => greedy_coloring conv nw lb boxing order)
  /\ forall lb,
       joins_all conv nw (fun lb boxing => greedy_coloring conv nw lb boxing order) lb.
Proof.
  intros Hwf Hcache Hperm.
  destruct (distances_returns nw (wf_closed _ Hwf) Hcache) as [d [Hd Hall]].
  assert (Hsym : forall b u v, near d b u v = near d b v u).
  { intros b u v. unfold near.
    now rewrite (dist_get_symmetric (graph nw) d u v Hwf Hall). }
  assert (Hrun : forall lb,
            greedy_coloring conv nw lb false order
            = Returns (Boxes (label 0 (greedy_boxes d (bound conv lb) order)))
            /\ greedy_coloring conv nw lb true order
               = Returns (Count (length (greedy_boxes d (bound conv lb) order)))).
  { intros lb. unfold greedy_coloring. rewrite Hd. now split. }
  assert (Hsame : forall lb u v i,
            let p := label 0 (greedy_boxes d (bound conv lb) order) in
            In (u, i) p -> In (v, i) p -> u <> v -> near d (bound conv lb) u v = true).
  { intros lb u v i p Hu Hv Huv.
    destruct (greedy_boxes_inv d (bound conv lb) (Hsym _) order) as (_ & Hin & _ & _).
    apply label_entry in Hu, Hv.
    destruct Hu as [_ [box [Hnth Hu]]], Hv as [_ [box' [Hnth' Hv]]].
    rewrite Hnth in Hnth'. injection Hnth' as <-.
    rewrite Forall_forall in Hin.
    now apply (Hin box (nth_error_In _ _ Hnth)). }
  split; [constructor |].
  - intros lb. destruct (Hrun lb) as [Hfalse _]. eexists. split; [exact Hfalse |].
    exists d. split; [assumption |]. split.
    + rewrite label_nodes.
      destruct (greedy_boxes_inv d (bound conv lb) (Hsym _) order) as (_ & _ & _ & Hcat).
      now rewrite Hcat.
    + apply Hsame.
  - intros lb p Hp. destruct (Hrun lb) as [Hfalse Htrue].
    rewrite Hfalse in Hp. injection Hp as <-. rewrite Htrue.
    destruct (greedy_boxes_inv d (bound conv lb) (Hsym _) order) as (Hne & _ & _ & _).
    now rewrite (label_count _ Hne).
  - intros lb. destruct (Hrun lb) as [Hfalse _]. eexists. split; [exact Hfalse |].
    exists d. split; [assumption |].
    destruct (greedy_boxes_inv d (bound conv lb) (Hsym _) order) as (_ & _ & Hap & _).
    intros i j Hi Hj Hij. apply id_entry in Hi, Hj.
    destruct Hi as [u Hu], Hj as [v Hv]. apply label_entry in Hu, Hv.
    destruct Hu as [_ [bi [Hnthi Hu]]], Hv as [_ [bj [Hnthj Hv]]].
    rewrite Nat.sub_0_r in Hnthi, Hnthj.
    destruct (Nat.lt_ge_cases i j) as [Hlt | Hge].
    + destruct (ordered_pairs_nth _ _ Hap i j bi bj Hlt Hnthi Hnthj)
        as (x & y & Hx & Hy & Hfar).
      exists x, y. split; [| split; [| assumption]];
        apply label_entry; (split; [lia |]); rewrite Nat.sub_0_r; eauto.
    + assert (Hlt : j < i) by lia.
      destruct (ordered_pairs_nth _ _ Hap j i bj bi Hlt Hnthj Hnthi)
        as (x & y & Hx & Hy & Hfar).
      exists y, x. split; [| split; [| now rewrite Hsym]];
        apply label_entry; (split; [lia |]); rewrite Nat.sub_0_r; eauto.
Qed.






(** The two ends of the size range, in terms of the bound. *)
Lemma lb_ends (conv : Convention) (nw : Network)
  (algorithm : Z -> bool -> outcome Covering) (d : DistDict) :
  well_formed (graph nw) ->
  connected (graph nw) ->
  nodes (graph nw) <> [] ->
  distances nw = Returns d ->
  all_pairs_shortest_path_length (graph nw) = Returns d ->
  lb_family conv nw algorithm ->
  (forall lb, (bound conv lb <= 0)%Z ->
     algorithm lb true = Returns (Count (length (nodes (graph nw)))))
  /\ (forall lb, (Z.of_nat (diameter_of d) <= bound conv lb)%Z ->
        (algorithm lb true = Returns (Count 1) <-> joins_all conv nw algorithm lb)).
Proof.
  intros Hwf Hconn Hne Hd Hall [Hvalid Hcount].
  pose proof (wf_closed _ Hwf) as Hc.
  split; intros lb Hb; destruct (Hvalid lb) as [p [Hp [d' [Hd' Hv]]]];
    rewrite Hd in Hd'; injection Hd' as <-; rewrite (Hcount lb p Hp).
  - now rewrite (valid_singletons (graph nw) d Hc Hall _ p Hb (wf_nodup _ Hwf) Hv).
  - pose proof (valid_one_box (graph nw) d Hc Hall _ p Hb Hconn Hne Hv) as Hiff.
    split.
    + intros Hone. injection Hone as Hone. exists p. split; [assumption |].
      exists d. split; [assumption |]. now apply Hiff.
    + intros [p' [Hp' [d' [Hd' Hun]]]].
      rewrite Hp in Hp'. injection Hp' as <-.
      rewrite Hd in Hd'. injection Hd' as <-.
      do 2 f_equal. now apply Hiff.
Qed.

(** Greedy coloring at the two ends, in any node order: it is of the
    family and joins what it can, so its counts are the node count and 1. *)
Lemma greedy_counts_at_the_ends (nw : Network) (order : list node) :
  well_formed (graph nw) ->
  connected (graph nw) ->
  cache_consistent nw ->
  Permutation order (nodes (graph nw)) ->
  nodes (graph nw) <> [] ->
  exists diam,
    diameter nw = Returns diam
    /\ greedy_coloring BelowLb nw 1 true order
       = Returns (Count (length (nodes (graph nw))))
    /\ (forall lb, (Z.of_nat diam < lb)%Z ->
          greedy_coloring BelowLb nw lb true order = Returns (Count 1))
    /\ greedy_coloring UpToLb nw 0 true order
       = Returns (Count (length (nodes (graph nw))))
    /\ (forall lb, (Z.of_nat diam <= lb)%Z ->
          greedy_coloring UpToLb nw lb true order = Returns (Count 1)).
Proof.
  intros Hwf Hconn Hcache Hperm Hne.
  destruct (distances_returns nw (wf_closed _ Hwf) Hcache) as [d [Hd Hall]].
  exists (diameter_of d). unfold diameter. rewrite Hd. cbn [bind].
  split; [reflexivity |].
  destruct (greedy_in_lb_family BelowLb nw order Hwf Hcache Hperm) as [Hfam Hjoin].
  destruct (greedy_in_lb_family UpToLb nw order Hwf Hcache Hperm) as [Hfam' Hjoin'].
  destruct (lb_ends BelowLb nw _ d Hwf Hconn Hne Hd Hall Hfam) as [Hlow Hhigh].
  destruct (lb_ends UpToLb nw _ d Hwf Hconn Hne Hd Hall Hfam') as [Hlow' Hhigh'].
  split; [apply (Hlow 1%Z); cbn; lia |].
  split; [intros lb Hlb; apply (Hhigh lb); [cbn; lia | apply Hjoin] |].
  split; [apply (Hlow' 0%Z); cbn; lia |].
  intros lb Hlb. apply (Hhigh' lb); [cbn; lia | apply Hjoin'].
Qed.




End CoveringFacts.

(* ===================================================================== *)
(** ** Facts about the driver *)
(* ===================================================================== *)

Module HarnessFacts.
Import Py Graphs Registry Harness GraphFacts DistanceFacts.
Local Open Scope string_scope.
Local Open Scope list_scope.
Local Open Scope Z_scope.

(** Run the statements of [boxing_all] as far as they compute. *)
Ltac run :=
  cbv [boxing_all initial_world get_dist_dict mbind emit get_network lift ret
       ticks the_network trace time_time gc_collect benchmark run_boxing
       set_shortest_paths for_each keys map flat_map fst snd algs_lb algs_rb
       lb_body rb_body rb_guard getitem find alg kwargs events_of
       String.eqb Ascii.eqb Bool.eqb negb andb shortest_paths graph app].

(** The same, leaving the concatenations of the trace in place. *)
Ltac run_statements :=
  cbv [boxing_all initial_world get_dist_dict mbind emit get_network lift ret
       ticks the_network trace time_time gc_collect benchmark run_boxing
       set_shortest_paths for_each keys map flat_map fst snd algs_lb algs_rb
       lb_body rb_body rb_guard getitem find alg kwargs events_of
       String.eqb Ascii.eqb Bool.eqb negb andb shortest_paths graph].

Lemma last_item_returns (lb : list Z) :
  lb <> [] -> exists size, last_item lb = Returns size /\ In size lb.
Proof.
  intros Hne. unfold last_item. destruct (rev lb) as [| x rest] eqn:Hrev.
  - apply (f_equal (@rev Z)) in Hrev. rewrite rev_involutive in Hrev. contradiction.
  - exists x. split; [reflexivity |]. apply in_rev. rewrite Hrev. now left.
Qed.

(** In an ascending sequence the last item is the largest. *)
Lemma last_item_largest (lb : list Z) (size : Z) :
  StronglySorted Z.le lb -> last_item lb = Returns size ->
  forall x, In x lb -> x <= size.
Proof.
  unfold last_item. intros Hs. induction Hs as [| a l Hs IH Hall]; [discriminate |].
  cbn [rev]. destruct (rev l) as [| y rest] eqn:Hrev.
  - apply (f_equal (@rev Z)) in Hrev. rewrite rev_involutive in Hrev. subst l.
    cbn. intros H. injection H as <-. intros x [<- | []]. lia.
  - cbn [app]. intros H. injection H as <-. intros x [<- | Hx].
    + rewrite Forall_forall in Hall. apply Hall. apply in_rev.
      rewrite Hrev. now left.
    + now apply IH.
Qed.

(** The events of a run of [boxing_all], written out. *)
Lemma boxing_all_events (clock : nat -> Z) (net : string) (lb rb : list Z)
  (nw : Network) (d : DistDict) (size : Z) :
  all_pairs_shortest_path_length (graph nw) = Returns d ->
  last_item lb = Returns size ->
  let cached := {| graph := graph nw;
                   shortest_paths := Some (match shortest_paths nw with
                                           | Some d0 => d0
                                           | None => d
                                           end) |} in
  let dropped := {| graph := graph nw; shortest_paths := None |} in
  let fresh := {| graph := graph nw; shortest_paths := Some d |} in
  let time_offset := clock 1%nat - clock 0%nat in
  let boxing := [("boxing", VBool true)] in
  events_of (boxing_all clock net lb rb (initial_world nw))
  = Some
      ([TimeTime (clock 0%nat); GetDistDict; TimeTime (clock 1%nat);
        Benchmark (mk_names net "greedy") cached (Sweep lb) greedy_coloring 10 boxing;
        RandomSeed 137; NpRandomSeed 137;
        RunBoxing (mk_names net "cbb") time_offset cached (Sweep lb) cbb false boxing;
        RandomSeed 137; NpRandomSeed 137;
        RunBoxing (mk_names net "greedy") time_offset cached (Sweep lb)
          greedy_coloring false boxing]
       ++ [RandomSeed 137; NpRandomSeed 137;
           SetShortestPaths None; GcCollect dropped;
           TimeTime (clock 2%nat); SetShortestPaths (Some d); TimeTime (clock 3%nat);
           RunBoxing (mk_names net "merge") (clock 3%nat - clock 2%nat) fresh
             (Single size) merge_algorithm true boxing]
       ++ [RandomSeed 137; NpRandomSeed 137;
           RunBoxing (mk_names net "obca") time_offset fresh (Sweep lb) obca false boxing;
           RandomSeed 137; NpRandomSeed 137;
           SetShortestPaths None; GcCollect dropped;
           TimeTime (clock 4%nat); SetShortestPaths (Some d); TimeTime (clock 5%nat);
           RunBoxing (mk_names net "fuzzy") (clock 5%nat - clock 4%nat) fresh
             (Sweep lb) fuzzy false boxing]
       ++ flat_map (fun ke =>
                      [RandomSeed 137; NpRandomSeed 137;
                       RunBoxing (mk_names net (fst ke)) time_offset fresh (Sweep rb)
                         (alg (snd ke)) false (kwargs (snd ke))])
                   algs_rb).
Proof.
  intros Hd Hlast. destruct nw as [g sp]. cbn [graph shortest_paths] in *.
  destruct sp as [d0 |]; run;
    repeat (first [rewrite Hd | rewrite Hlast]; run); reflexivity.
Qed.

(** C8, as the code has it.  In a run of [boxing_all], [run_boxing] is
    called for merge exactly once, with the single size [lb[-1]] (the
    largest size when [lb] ascends) and [merge_alg=True], not with the
    sweep.  Merge's iteration reads: the two seedings; the distance
    cache set to [None] and the collector run while it is [None]; the
    cache computed afresh between two clock readings; the call, made
    with the cache in place again, whose [time_offset] is the
    difference of these two readings, the time the recomputation took,
    not the offset [clock 1 - clock 0] measured around [get_dist_dict]. *)
Theorem merge_runs_once_at_last_size (clock : nat -> Z) (net : string)
  (lb rb : list Z) (nw : Network) :
  closed_graph (graph nw) ->
  lb <> [] ->
  exists events before after d size,
    events_of (boxing_all clock net lb rb (initial_world nw)) = Some events
    /\ last_item lb = Returns size
    /\ (StronglySorted Z.le lb -> forall x, In x lb -> x <= size)
    /\ all_pairs_shortest_path_length (graph nw) = Returns d
    /\ events
       = before
         ++ [RandomSeed 137; NpRandomSeed 137;
             SetShortestPaths None;
             GcCollect {| graph := graph nw; shortest_paths := None |};
             TimeTime (clock 2%nat); SetShortestPaths (Some d);
             TimeTime (clock 3%nat);
             RunBoxing (mk_names net "merge") (clock 3%nat - clock 2%nat)
               {| graph := graph nw; shortest_paths := Some d |}
               (Single size) merge_algorithm true [("boxing", VBool true)]]
         ++ after
    /\ forallb (fun e => negb (is_run_boxing_of merge_algorithm e))
               (before ++ after) = true.
Proof.
  intros Hc Hne.
  destruct (all_pairs_returns (graph nw) Hc) as [d [Hd _]].
  destruct (last_item_returns lb Hne) as [size [Hlast _]].
  pose proof (boxing_all_events clock net lb rb nw d size Hd Hlast) as Hev.
  cbv zeta in Hev.
  eexists. eexists. eexists. exists d, size.
  split; [exact Hev |]. split; [exact Hlast |].
  split; [intros Hs; now apply last_item_largest |].
  split; [exact Hd |]. split; [reflexivity |].
  reflexivity.
Qed.

(** C10. No key of [algs_rb] is ['merge'], so the guard of the second
    loop holds in every iteration and the skipping arm is never taken;
    the loop calls [run_boxing] once for each of the six entries, in
    order, with the sizes [rb] and the offset it is given; in a run of
    [boxing_all] that offset is [clock 1 - clock 0], the time measured
    around [get_dist_dict]. *)
Theorem rb_loop_runs_every_algorithm (clock : nat -> Z) (net : string)
  (lb rb : list Z) (nw : Network) :
  (forall k, In k (keys algs_rb) -> rb_guard k = RunsBoxing)
  /\ map (fun ke => alg (snd ke)) algs_rb
     = [mcwr; mcwr; mcwr; memb; random_sequential; remcc]
  /\ (forall time_offset w0,
        exists w1,
          for_each (keys algs_rb) (rb_body net rb time_offset) w0 = Returns (tt, w1)
          /\ trace w1
             = trace w0
               ++ flat_map (fun ke =>
                    [RandomSeed 137; NpRandomSeed 137;
                     RunBoxing (mk_names net (fst ke)) time_offset (the_network w0)
                       (Sweep rb) (alg (snd ke)) false (kwargs (snd ke))])
                  algs_rb)
  /\ (closed_graph (graph nw) -> lb <> [] ->
      exists events before nw',
        events_of (boxing_all clock net lb rb (initial_world nw)) = Some events
        /\ firstn 3 events
           = [TimeTime (clock 0%nat); GetDistDict; TimeTime (clock 1%nat)]
        /\ events
           = before
             ++ flat_map (fun ke =>
                  [RandomSeed 137; NpRandomSeed 137;
                   RunBoxing (mk_names net (fst ke)) (clock 1%nat - clock 0%nat) nw'
                     (Sweep rb) (alg (snd ke)) false (kwargs (snd ke))])
                algs_rb).
Proof.
  split; [| split; [| split]].
  - intros k Hk. cbn in Hk.
    repeat (destruct Hk as [<- | Hk]; [reflexivity |]). contradiction.
  - reflexivity.
  - intros time_offset [n nw0 tr]. eexists. split.
    + run_statements. reflexivity.
    + run_statements. rewrite <- !app_assoc. reflexivity.
  - intros Hc Hne.
    destruct (all_pairs_returns (graph nw) Hc) as [d [Hd _]].
    destruct (last_item_returns lb Hne) as [size [Hlast _]].
    pose proof (boxing_all_events clock net lb rb nw d size Hd Hlast) as Hev.
    cbv zeta in Hev.
    eexists. eexists. eexists. split; [exact Hev |]. split; [reflexivity |].
    rewrite !app_assoc. reflexivity.
Qed.

Lemma demo_network_closed : closed_graph (graph Inputs.demo_network).
Proof. apply wf_closed. apply well_formedb_sound. reflexivity. Qed.

Lemma merge_runs_once_at_last_size_witness :
  closed_graph (graph Inputs.demo_network)
  /\ [1; 2; 3] <> []
  /\ exists events before after d size,
       events_of (boxing_all Inputs.demo_clock "demo" [1; 2; 3] [1; 2]
                    (initial_world Inputs.demo_network)) = Some events
       /\ last_item [1; 2; 3] = Returns size
       /\ (StronglySorted Z.le [1; 2; 3] -> forall x, In x [1; 2; 3] -> x <= size)
       /\ all_pairs_shortest_path_length (graph Inputs.demo_network) = Returns d
       /\ events
          = before
            ++ [RandomSeed 137; NpRandomSeed 137;
                SetShortestPaths None;
                GcCollect {| graph := graph Inputs.demo_network; shortest_paths := None |};
                TimeTime (Inputs.demo_clock 2%nat); SetShortestPaths (Some d);
                TimeTime (Inputs.demo_clock 3%nat);
                RunBoxing (mk_names "demo" "merge")
                  (Inputs.demo_clock 3%nat - Inputs.demo_clock 2%nat)
                  {| graph := graph Inputs.demo_network; shortest_paths := Some d |}
                  (Single size) merge_algorithm true [("boxing", VBool true)]]
            ++ after
       /\ forallb (fun e => negb (is_run_boxing_of merge_algorithm e))
                  (before ++ after) = true.
Proof.
  split; [exact demo_network_closed |].
  split; [discriminate |].
  apply (merge_runs_once_at_last_size Inputs.demo_clock "demo" [1; 2; 3] [1; 2]
           Inputs.demo_network).
  - exact demo_network_closed.
  - discriminate.
Defined.

Lemma rb_loop_runs_every_algorithm_witness :
  closed_graph (graph Inputs.demo_network)
  /\ [1; 2; 3] <> []
  /\ exists events before nw',
       events_of (boxing_all Inputs.demo_clock "demo" [1; 2; 3] [1; 2]
                    (initial_world Inputs.demo_network)) = Some events
       /\ firstn 3 events
          = [TimeTime (Inputs.demo_clock 0%nat); GetDistDict;
             TimeTime (Inputs.demo_clock 1%nat)]
       /\ events
          = before
            ++ flat_map (fun ke =>
                 [RandomSeed 137; NpRandomSeed 137;
                  RunBoxing (mk_names "demo" (fst ke))
                    (Inputs.demo_clock 1%nat - Inputs.demo_clock 0%nat) nw'
                    (Sweep [1; 2]) (alg (snd ke)) false (kwargs (snd ke))])
               algs_rb.
Proof.
  split; [exact demo_network_closed |].
  split; [discriminate |].
  apply (proj2 (proj2 (proj2
           (rb_loop_runs_every_algorithm Inputs.demo_clock "demo" [1; 2; 3] [1; 2]
              Inputs.demo_network)))).
  - exact demo_network_closed.
  - discriminate.
Defined.

(** C8 fails as stated.  On the three-node path with the sizes 1, 2, 3
    and the clock reading 0, 1, 4, 9, ...: the one call of [run_boxing]
    for merge finds the distance cache populated, not dropped (it was
    rebuilt after the drop), and is given the offset 5, the time between
    the third and the fourth reading, which the rebuilding took; no call
    for merge is made without the cache.  And with the sizes 3, 1, 2
    merge is run at size 2, the last, though 3 was asked for. *)
Lemma merge_call_finds_cache_rebuilt :
  exists events d events',
    events_of (boxing_all Inputs.demo_clock "demo" [1; 2; 3] [1; 2]
                 (initial_world Inputs.demo_network)) = Some events
    /\ all_pairs_shortest_path_length (graph Inputs.demo_network) = Returns d
    /\ filter (is_run_boxing_of merge_algorithm) events
       = [RunBoxing (mk_names "demo" "merge") 5
            {| graph := graph Inputs.demo_network; shortest_paths := Some d |}
            (Single 3) merge_algorithm true [("boxing", VBool true)]]
    /\ Inputs.demo_clock 3%nat - Inputs.demo_clock 2%nat = 5
    /\ ~ merge_as_specified [1; 2; 3] events
    /\ events_of (boxing_all Inputs.demo_clock "demo" [3; 1; 2] [1; 2]
                    (initial_world Inputs.demo_network)) = Some events'
    /\ map (fun e => match e with
                     | RunBoxing _ _ _ sizes _ _ _ => Some sizes
                     | _ => None
                     end)
           (filter (is_run_boxing_of merge_algorithm) events')
       = [Some (Single 2)]
    /\ ~ merge_as_specified [3; 1; 2] events'.
Proof.
  assert (Hfilter : forall events lb,
            (forall e, In e (filter (is_run_boxing_of merge_algorithm) events) ->
               match e with
               | RunBoxing _ _ nw (Single size) _ _ _ =>
                   shortest_paths nw <> None \/ exists x, In x lb /\ size < x
               | _ => True
               end) ->
            ~ merge_as_specified lb events).
  { intros events lb Hall (names & off & nw & size & m & kw & Hin & Hmax & Hnone).
    specialize (Hall _ (proj2 (filter_In _ _ _) (conj Hin eq_refl))).
    cbn in Hall. destruct Hall as [Hc | [x [Hx Hlt]]]; [congruence |].
    specialize (Hmax x Hx). lia. }
  eexists. eexists. eexists.
  split; [vm_compute; reflexivity |]. split; [vm_compute; reflexivity |].
  split; [vm_compute; reflexivity |]. split; [reflexivity |].
  split.
  { apply Hfilter. intros e He. vm_compute in He.
    destruct He as [<- | []]. left. discriminate. }
  split; [vm_compute; reflexivity |]. split; [vm_compute; reflexivity |].
  apply Hfilter. intros e He. vm_compute in He.
  destruct He as [<- | []]. right. exists 3. split; [cbn; tauto | lia].
Qed.

End HarnessFacts.

(* ===================================================================== *)
(** ** More about the driver *)
(* ===================================================================== *)

Module HarnessMore.
Import Py Graphs Registry Harness Traces GraphFacts DistanceFacts HarnessFacts.
Import PyStr Paths PathNames PyStrFacts PathsMore.
Local Open Scope string_scope.
Local Open Scope list_scope.
Local Open Scope Z_scope.

(** The world a run of [boxing_all] ends in. *)
Lemma boxing_all_world (clock : nat -> Z) (net : string) (lb rb : list Z)
  (nw : Network) (d : DistDict) (size : Z) :
  all_pairs_shortest_path_length (graph nw) = Returns d ->
  last_item lb = Returns size ->
  exists w,
    boxing_all clock net lb rb (initial_world nw) = Returns (tt, w)
    /\ ticks w = 6%nat
    /\ the_network w = {| graph := graph nw; shortest_paths := Some d |}.
Proof.
  intros Hd Hlast. destruct nw as [g sp]. cbn [graph shortest_paths] in *.
  destruct sp as [d0 |]; run;
    repeat (first [rewrite Hd | rewrite Hlast]; run);
    (eexists; split; [reflexivity | split; reflexivity]).
Qed.

(** X9. [boxing_all] raises [IndexError] exactly when [lb] is empty:
    [lb[-1]] is evaluated in merge's iteration whatever the sizes are
    needed for, and nothing else in the run can raise. *)
Theorem boxing_all_raises_iff (clock : nat -> Z) (net : string)
  (lb rb : list Z) (nw : Network) :
  closed_graph (graph nw) ->
  (boxing_all clock net lb rb (initial_world nw) = Raises IndexError <-> lb = [])
  /\ (lb <> [] ->
      exists w, boxing_all clock net lb rb (initial_world nw) = Returns (tt, w)).
Proof.
  intros Hc. destruct (all_pairs_returns (graph nw) Hc) as [d [Hd _]].
  assert (Hret : lb <> [] ->
            exists w, boxing_all clock net lb rb (initial_world nw) = Returns (tt, w)).
  { intros Hne. destruct (last_item_returns lb Hne) as [size [Hlast _]].
    destruct (boxing_all_world clock net lb rb nw d size Hd Hlast) as [w [Hw _]].
    now exists w. }
  split; [| exact Hret]. split.
  - intros Hraise. destruct lb as [| x lb]; [reflexivity |].
    destruct Hret as [w Hw]; [discriminate |]. rewrite Hw in Hraise. discriminate.
  - intros ->. destruct nw as [g sp]. cbn [graph shortest_paths] in *.
    destruct sp as [d0 |]; run; repeat (rewrite Hd; run); reflexivity.
Qed.

Lemma boxing_all_raises_iff_witness :
  closed_graph (graph Inputs.demo_network)
  /\ (boxing_all Inputs.demo_clock "demo" [] [1; 2]
        (initial_world Inputs.demo_network) = Raises IndexError
      <-> @nil Z = [])
  /\ (@nil Z <> [] ->
      exists w, boxing_all Inputs.demo_clock "demo" [] [1; 2]
                  (initial_world Inputs.demo_network) = Returns (tt, w)).
Proof.
  split; [exact demo_network_closed |].
  apply (boxing_all_raises_iff Inputs.demo_clock "demo" [] [1; 2]
           Inputs.demo_network).
  exact demo_network_closed.
Defined.

(** The events of a run, once more, as a list to compute with. *)
Lemma boxing_all_trace (clock : nat -> Z) (net : string) (lb rb : list Z)
  (nw : Network) :
  closed_graph (graph nw) -> lb <> [] ->
  exists events d size cached,
    events_of (boxing_all clock net lb rb (initial_world nw)) = Some events
    /\ all_pairs_shortest_path_length (graph nw) = Returns d
    /\ last_item lb = Returns size
    /\ events
       = [TimeTime (clock 0%nat); GetDistDict; TimeTime (clock 1%nat);
          Benchmark (mk_names net "greedy") cached (Sweep lb) greedy_coloring 10
            [("boxing", VBool true)];
          RandomSeed 137; NpRandomSeed 137;
          RunBoxing (mk_names net "cbb") (clock 1%nat - clock 0%nat) cached
            (Sweep lb) cbb false [("boxing", VBool true)];
          RandomSeed 137; NpRandomSeed 137;
          RunBoxing (mk_names net "greedy") (clock 1%nat - clock 0%nat) cached
            (Sweep lb) greedy_coloring false [("boxing", VBool true)];
          RandomSeed 137; NpRandomSeed 137;
          SetShortestPaths None;
          GcCollect {| graph := graph nw; shortest_paths := None |};
          TimeTime (clock 2%nat); SetShortestPaths (Some d); TimeTime (clock 3%nat);
          RunBoxing (mk_names net "merge") (clock 3%nat - clock 2%nat)
            {| graph := graph nw; shortest_paths := Some d |}
            (Single size) merge_algorithm true [("boxing", VBool true)];
          RandomSeed 137; NpRandomSeed 137;
          RunBoxing (mk_names net "obca") (clock 1%nat - clock 0%nat)
            {| graph := graph nw; shortest_paths := Some d |}
            (Sweep lb) obca false [("boxing", VBool true)]]
         ++ [RandomSeed 137; NpRandomSeed 137;
             SetShortestPaths None;
             GcCollect {| graph := graph nw; shortest_paths := None |};
             TimeTime (clock 4%nat); SetShortestPaths (Some d);
             TimeTime (clock 5%nat);
             RunBoxing (mk_names net "fuzzy") (clock 5%nat - clock 4%nat)
               {| graph := graph nw; shortest_paths := Some d |}
               (Sweep lb) fuzzy false [("boxing", VBool true)]]
         ++ flat_map (fun ke =>
              [RandomSeed 137; NpRandomSeed 137;
               RunBoxing (mk_names net (fst ke)) (clock 1%nat - clock 0%nat)
                 {| graph := graph nw; shortest_paths := Some d |} (Sweep rb)
                 (alg (snd ke)) false (kwargs (snd ke))])
            algs_rb.
Proof.
  intros Hc Hne.
  destruct (all_pairs_returns (graph nw) Hc) as [d [Hd _]].
  destruct (last_item_returns lb Hne) as [size [Hlast _]].
  pose proof (boxing_all_events clock net lb rb nw d size Hd Hlast) as Hev.
  cbv zeta in Hev.
  eexists. exists d, size. eexists.
  split; [exact Hev |]. split; [exact Hd |]. split; [exact Hlast |].
  reflexivity.
Qed.

(** X10. In a run of [boxing_all], [run_boxing] is called for fuzzy
    exactly once, with the whole sweep [lb] and without [merge_alg].
    Fuzzy's iteration reads as merge's does: the two seedings; the cache
    set to [None] and the collector run; the cache computed afresh
    between the fifth and the sixth clock reading; the call, whose
    [time_offset] is the difference of these two readings. *)
Theorem fuzzy_runs_full_sweep (clock : nat -> Z) (net : string)
  (lb rb : list Z) (nw : Network) :
  closed_graph (graph nw) ->
  lb <> [] ->
  exists events before after d,
    events_of (boxing_all clock net lb rb (initial_world nw)) = Some events
    /\ all_pairs_shortest_path_length (graph nw) = Returns d
    /\ events
       = before
         ++ [RandomSeed 137; NpRandomSeed 137;
             SetShortestPaths None;
             GcCollect {| graph := graph nw; shortest_paths := None |};
             TimeTime (clock 4%nat); SetShortestPaths (Some d);
             TimeTime (clock 5%nat);
             RunBoxing (mk_names net "fuzzy") (clock 5%nat - clock 4%nat)
               {| graph := graph nw; shortest_paths := Some d |}
               (Sweep lb) fuzzy false [("boxing", VBool true)]]
         ++ after
    /\ forallb (fun e => negb (is_run_boxing_of fuzzy e)) (before ++ after) = true.
Proof.
  intros Hc Hne.
  destruct (boxing_all_trace clock net lb rb nw Hc Hne)
    as (events & d & size & cached & Hev & Hd & _ & Heq).
  eexists. eexists. eexists. exists d.
  split; [exact Hev |]. split; [exact Hd |].
  split; [exact Heq |]. reflexivity.
Qed.

Lemma fuzzy_runs_full_sweep_witness :
  closed_graph (graph Inputs.demo_network)
  /\ [1; 2; 3] <> []
  /\ exists events before after d,
       events_of (boxing_all Inputs.demo_clock "demo" [1; 2; 3] [1; 2]
                    (initial_world Inputs.demo_network)) = Some events
       /\ all_pairs_shortest_path_length (graph Inputs.demo_network) = Returns d
       /\ events
          = before
            ++ [RandomSeed 137; NpRandomSeed 137;
                SetShortestPaths None;
                GcCollect {| graph := graph Inputs.demo_network; shortest_paths := None |};
                TimeTime (Inputs.demo_clock 4%nat); SetShortestPaths (Some d);
                TimeTime (Inputs.demo_clock 5%nat);
                RunBoxing (mk_names "demo" "fuzzy")
                  (Inputs.demo_clock 5%nat - Inputs.demo_clock 4%nat)
                  {| graph := graph Inputs.demo_network; shortest_paths := Some d |}
                  (Sweep [1; 2; 3]) fuzzy false [("boxing", VBool true)]]
            ++ after
       /\ forallb (fun e => negb (is_run_boxing_of fuzzy e)) (before ++ after) = true.
Proof.
  split; [exact demo_network_closed |]. split; [discriminate |].
  apply (fuzzy_runs_full_sweep Inputs.demo_clock "demo" [1; 2; 3] [1; 2]
           Inputs.demo_network).
  - exact demo_network_closed.
  - discriminate.
Defined.

(** X11. A run of [boxing_all] calls into [boxes.io] twelve times: first
    [benchmark] for greedy, made before either generator has been
    seeded; then [run_boxing] once for every key of [algs_lb] and then of
    [algs_rb], in the order of the dicts, each call made with both
    [random.seed] and [np.random.seed] given 137 since the call before. *)
Theorem calls_in_order_and_seeded (clock : nat -> Z) (net : string)
  (lb rb : list Z) (nw : Network) :
  closed_graph (graph nw) ->
  lb <> [] ->
  exists events,
    events_of (boxing_all clock net lb rb (initial_world nw)) = Some events
    /\ seeded_calls None None events
       = (BenchmarkCall "greedy", None, None)
         :: map (fun k => (RunBoxingCall k, Some 137, Some 137))
                (keys algs_lb ++ keys algs_rb).
Proof.
  intros Hc Hne.
  destruct (boxing_all_trace clock net lb rb nw Hc Hne)
    as (events & d & size & cached & Hev & _ & _ & Heq).
  exists events. split; [exact Hev |]. rewrite Heq. reflexivity.
Qed.

Lemma calls_in_order_and_seeded_witness :
  closed_graph (graph Inputs.demo_network)
  /\ [1; 2; 3] <> []
  /\ exists events,
       events_of (boxing_all Inputs.demo_clock "demo" [1; 2; 3] [1; 2]
                    (initial_world Inputs.demo_network)) = Some events
       /\ seeded_calls None None events
          = (BenchmarkCall "greedy", None, None)
            :: map (fun k => (RunBoxingCall k, Some 137, Some 137))
                   (keys algs_lb ++ keys algs_rb).
Proof.
  split; [exact demo_network_closed |]. split; [discriminate |].
  apply (calls_in_order_and_seeded Inputs.demo_clock "demo" [1; 2; 3] [1; 2]
           Inputs.demo_network).
  - exact demo_network_closed.
  - discriminate.
Defined.

(** X12. Whatever distance cache the network comes with, a run of
    [boxing_all] that returns leaves it with its graph untouched and
    with the cache that [nx.all_pairs_shortest_path_length] computes
    from that graph (the one computed in fuzzy's iteration), after
    reading the clock six times. *)
Theorem boxing_all_leaves_cache (clock : nat -> Z) (net : string)
  (lb rb : list Z) (nw : Network) :
  closed_graph (graph nw) ->
  lb <> [] ->
  exists w d,
    boxing_all clock net lb rb (initial_world nw) = Returns (tt, w)
    /\ graph (the_network w) = graph nw
    /\ all_pairs_shortest_path_length (graph nw) = Returns d
    /\ shortest_paths (the_network w) = Some d
    /\ ticks w = 6%nat.
Proof.
  intros Hc Hne.
  destruct (all_pairs_returns (graph nw) Hc) as [d [Hd _]].
  destruct (last_item_returns lb Hne) as [size [Hlast _]].
  destruct (boxing_all_world clock net lb rb nw d size Hd Hlast)
    as [w [Hw [Hticks Hnet]]].
  exists w, d. rewrite Hnet. cbn [graph shortest_paths].
  split; [assumption |]. split; [reflexivity |]. split; [assumption |].
  split; [reflexivity | assumption].
Qed.

Lemma boxing_all_leaves_cache_witness :
  closed_graph (graph Inputs.demo_network)
  /\ [1; 2; 3] <> []
  /\ exists w d,
       boxing_all Inputs.demo_clock "demo" [1; 2; 3] [1; 2]
         (initial_world Inputs.demo_network) = Returns (tt, w)
       /\ graph (the_network w) = graph Inputs.demo_network
       /\ all_pairs_shortest_path_length (graph Inputs.demo_network) = Returns d
       /\ shortest_paths (the_network w) = Some d
       /\ ticks w = 6%nat.
Proof.
  split; [exact demo_network_closed |]. split; [discriminate |].
  apply (boxing_all_leaves_cache Inputs.demo_clock "demo" [1; 2; 3] [1; 2]
           Inputs.demo_network).
  - exact demo_network_closed.
  - discriminate.
Defined.

Lemma NoDup_map_injective {A B : Type} (f : A -> B) (l : list A) :
  (forall x y, f x = f y -> x = y) -> NoDup l -> NoDup (map f l).
Proof.
  intros Hinj Hnd. induction Hnd as [| x l Hx Hnd IH]; cbn; constructor.
  - intros Hin. apply in_map_iff in Hin. destruct Hin as [y [Heq Hy]].
    apply Hinj in Heq. now subst y.
  - exact IH.
Qed.

(** X13. Every [run_boxing] call of a run is given [path_(net)] as
    ['path'] and [net] as ['net']; the files [path_(net, alg)] of the
    eleven calls are pairwise different, and none of them is the
    benchmark file [path_(net, 'greedy', bench=True)]: no call's log is
    another's, whatever the network is named. *)
Theorem log_files_distinct (clock : nat -> Z) (net : string)
  (lb rb : list Z) (nw : Network) :
  closed_graph (graph nw) ->
  lb <> [] ->
  exists events,
    events_of (boxing_all clock net lb rb (initial_world nw)) = Some events
    /\ Forall (fun names => names_path names = path_ net None false
                            /\ names_net names = net)
              (run_boxing_names events)
    /\ NoDup (map (fun names => path_ (names_net names) (Some (names_alg names)) false)
                  (run_boxing_names events))
    /\ ~ In (path_ net (Some "greedy") true)
            (map (fun names => path_ (names_net names) (Some (names_alg names)) false)
                 (run_boxing_names events)).
Proof.
  intros Hc Hne.
  destruct (boxing_all_trace clock net lb rb nw Hc Hne)
    as (events & d & size & cached & Hev & _ & _ & Heq).
  exists events. split; [exact Hev |].
  assert (Hnames : run_boxing_names events
                   = map (mk_names net) (keys algs_lb ++ keys algs_rb)).
  { rewrite Heq. reflexivity. }
  rewrite Hnames. split; [| split].
  - apply Forall_forall. intros names Hin. apply in_map_iff in Hin.
    destruct Hin as [k [<- _]]. split; reflexivity.
  - rewrite map_map. cbn [names_net names_alg mk_names].
    apply NoDup_map_injective; [intros x y; apply path_alg_inj |].
    cbn. repeat constructor; cbn; intuition discriminate.
  - rewrite map_map. cbn [names_net names_alg mk_names].
    intros Hin. apply in_map_iff in Hin. destruct Hin as [k [Heq' Hk]].
    rewrite !path_shape in Heq'. do 3 apply append_cancel_l in Heq'.
    unfold extension in Heq'.
    change "_benchmark.txt" with ("_benchmark" +s ".txt")%py in Heq'.
    rewrite <- append_assoc in Heq'. apply append_cancel_r in Heq'. subst k.
    cbn in Hk. intuition discriminate.
Qed.

Lemma log_files_distinct_witness :
  closed_graph (graph Inputs.demo_network)
  /\ [1; 2; 3] <> []
  /\ exists events,
       events_of (boxing_all Inputs.demo_clock "demo" [1; 2; 3] [1; 2]
                    (initial_world Inputs.demo_network)) = Some events
       /\ Forall (fun names => names_path names = path_ "demo" None false
                               /\ names_net names = "demo")
                 (run_boxing_names events)
       /\ NoDup (map (fun names =>
                        path_ (names_net names) (Some (names_alg names)) false)
                     (run_boxing_names events))
       /\ ~ In (path_ "demo" (Some "greedy") true)
               (map (fun names =>
                       path_ (names_net names) (Some (names_alg names)) false)
                    (run_boxing_names events)).
Proof.
  split; [exact demo_network_closed |]. split; [discriminate |].
  apply (log_files_distinct Inputs.demo_clock "demo" [1; 2; 3] [1; 2]
           Inputs.demo_network).
  - exact demo_network_closed.
  - discriminate.
Defined.

(** X14. When the clock never runs backwards, no [run_boxing] call of a
    run is given a negative [time_offset]: each offset is the difference
    of two readings taken one after the other. *)
Theorem offsets_not_negative (clock : nat -> Z) (net : string)
  (lb rb : list Z) (nw : Network) :
  (forall k, clock k <= clock (S k)) ->
  closed_graph (graph nw) ->
  lb <> [] ->
  exists events,
    events_of (boxing_all clock net lb rb (initial_world nw)) = Some events
    /\ length (run_boxing_offsets events) = 11%nat
    /\ Forall (fun offset => 0 <= offset) (run_boxing_offsets events).
Proof.
  intros Hmono Hc Hne.
  destruct (boxing_all_trace clock net lb rb nw Hc Hne)
    as (events & d & size & cached & Hev & _ & _ & Heq).
  exists events. split; [exact Hev |]. rewrite Heq.
  pose proof (Hmono 0%nat). pose proof (Hmono 2%nat). pose proof (Hmono 4%nat).
  split; [reflexivity |].
  cbn. repeat constructor; lia.
Qed.

Lemma demo_clock_monotone (k : nat) : Inputs.demo_clock k <= Inputs.demo_clock (S k).
Proof. unfold Inputs.demo_clock. apply inj_le. nia. Qed.

Lemma offsets_not_negative_witness :
  (forall k, Inputs.demo_clock k <= Inputs.demo_clock (S k))
  /\ closed_graph (graph Inputs.demo_network)
  /\ [1; 2; 3] <> []
  /\ exists events,
       events_of (boxing_all Inputs.demo_clock "demo" [1; 2; 3] [1; 2]
                    (initial_world Inputs.demo_network)) = Some events
       /\ length (run_boxing_offsets events) = 11%nat
       /\ Forall (fun offset => 0 <= offset) (run_boxing_offsets events).
Proof.
  split; [exact demo_clock_monotone |].
  split; [exact demo_network_closed |]. split; [discriminate |].
  apply (offsets_not_negative Inputs.demo_clock "demo" [1; 2; 3] [1; 2]
           Inputs.demo_network).
  - exact demo_clock_monotone.
  - exact demo_network_closed.
  - discriminate.
Defined.

End HarnessMore.

(** * From the edge list to the distance table *)

Module PipelineFacts.
Import Py Graphs Registry Harness Parts GraphFacts GraphMore DistanceFacts
       DistanceMore HarnessFacts HarnessMore.
Local Open Scope string_scope.
Local Open Scope list_scope.
Local Open Scope Z_scope.
Local Open Scope nat_scope.

Lemma full_part_walk (h g : Graph) (u v : node) (n : nat) :
  closed_graph h -> full_part h g -> In u (nodes h) ->
  (walk g u v n <-> walk h u v n).
Proof.
  intros Hc [Hincl Hadj] Hu. split; intros Hw.
  - induction Hw as [v Hv | u v w n Huv IH Hin].
    + now constructor.
    + specialize (IH Hu). apply walk_step with (v := v); [assumption |].
      rewrite Hadj; [assumption |]. now apply (walk_in_nodes h u v n).
  - induction Hw as [v Hv | u v w n Huv IH Hin].
    + constructor. now apply Hincl.
    + specialize (IH Hu). apply walk_step with (v := v); [assumption |].
      rewrite <- Hadj; [assumption |]. now apply (walk_in_nodes h u v n).
Qed.

Lemma full_part_shortest (h g : Graph) (u v : node) (x : nat) :
  closed_graph h -> full_part h g -> In u (nodes h) ->
  shortest h u v x -> shortest g u v x.
Proof.
  intros Hc Hp Hu [Hw Hmin]. split.
  - now apply (full_part_walk h g u v x Hc Hp Hu).
  - intros n Hn. apply Hmin. now apply (full_part_walk h g u v n Hc Hp Hu).
Qed.

(** What [read_max_connected_component] returns, for what follows. *)
Lemma reader_result (reader : string -> nat -> Graph) (path : string)
  (header_length : nat) :
  let g := reader path header_length in
  well_formed g -> nodes g <> [] ->
  exists h,
    read_max_connected_component reader path header_length = Returns (network h)
    /\ well_formed h /\ connected h /\ full_part h g.
Proof.
  intros g Hwf Hne.
  destruct (reader_cases reader path header_length Hwf Hne)
    as [[Hconn Hret] | [_ (cs & pre & largest & post & _ & Hall & Hcs & _ & _ & Hret)]];
    fold g in Hret, Hconn || fold g in Hret.
  - exists g. split; [assumption |]. split; [assumption |].
    split; [assumption |]. split; [apply incl_refl | reflexivity].
  - assert (Hcomp : is_component g largest).
    { rewrite Forall_forall in Hall. apply Hall. rewrite Hcs.
      apply in_app_iff. right. now left. }
    exists (subgraph g largest). split; [assumption |].
    split; [now apply subgraph_well_formed |].
    split; [now apply subgraph_connected |]. split.
    + intros u Hu. rewrite nodes_subgraph in Hu. now apply filter_In in Hu.
    + intros u Hu. apply adj_subgraph_component; [assumption |].
      rewrite nodes_subgraph in Hu. apply filter_In in Hu. now apply mem_In.
Qed.

(** X17. The notebook's pipeline, end to end: the network that
    [read_max_connected_component] returns for a well-formed graph with
    a node is one [boxing_all] runs through without raising, and the
    distance table it leaves in [network.shortest_paths] has an entry
    for every pair of the network's nodes, each the length of a shortest
    walk between the two in the graph that was read: keeping only the
    largest component has changed no distance. *)
Theorem pipeline_table_is_total (reader : string -> nat -> Graph)
  (path : string) (header_length : nat) (clock : nat -> Z) (net : string)
  (lb rb : list Z) :
  let g := reader path header_length in
  well_formed g ->
  nodes g <> [] ->
  lb <> [] ->
  exists nw w d,
    read_max_connected_component reader path header_length = Returns nw
    /\ boxing_all clock net lb rb (initial_world nw) = Returns (tt, w)
    /\ shortest_paths (the_network w) = Some d
    /\ forall u v, In u (nodes (graph nw)) -> In v (nodes (graph nw)) ->
         exists x, dist_get d u v = Some x /\ shortest g u v x.
Proof.
  intros g Hwf Hne Hlb.
  destruct (reader_result reader path header_length Hwf Hne)
    as (h & Hret & Hh & Hconn & Hpart). fold g in Hpart.
  pose proof (wf_closed h Hh) as Hc.
  destruct (all_pairs_returns h Hc) as [d [Hd _]].
  destruct (last_item_returns lb Hlb) as [size [Hlast _]].
  destruct (boxing_all_world clock net lb rb (network h) d size Hd Hlast)
    as [w [Hw [_ Hnet]]].
  exists (network h), w, d. cbn [graph network] in *.
  split; [assumption |]. split; [assumption |].
  split; [now rewrite Hnet |].
  intros u v Hu Hv.
  destruct (dist_get_complete h d Hc Hd u v (Hconn u v Hu Hv)) as [x Hx].
  exists x. split; [assumption |].
  apply (full_part_shortest h g u v x Hc Hpart Hu).
  now apply (dist_get_sound h d Hc Hd u v x).
Qed.

Lemma pipeline_table_is_total_witness :
  well_formed Inputs.two_parts
  /\ nodes Inputs.two_parts <> []
  /\ [1%Z; 2%Z; 3%Z] <> []
  /\ exists nw w d,
       read_max_connected_component (fun _ _ => Inputs.two_parts) "g.edges" 0
       = Returns nw
       /\ boxing_all Inputs.demo_clock "demo" [1%Z; 2%Z; 3%Z] [1%Z; 2%Z]
            (initial_world nw) = Returns (tt, w)
       /\ shortest_paths (the_network w) = Some d
       /\ forall u v, In u (nodes (graph nw)) -> In v (nodes (graph nw)) ->
            exists x, dist_get d u v = Some x /\ shortest Inputs.two_parts u v x.
Proof.
  split; [exact two_parts_well_formed |]. split; [discriminate |].
  split; [discriminate |].
  apply (pipeline_table_is_total (fun _ _ => Inputs.two_parts) "g.edges" 0
           Inputs.demo_clock "demo" [1%Z; 2%Z; 3%Z] [1%Z; 2%Z]).
  - exact two_parts_well_formed.
  - discriminate.
  - discriminate.
Defined.

End PipelineFacts.

Module PathsExamples.
Import PyStr Paths.
Local Open Scope string_scope.

Example grid_in_name : contains "grid" "my_grid2d_30" = true.
Proof. reflexivity. Qed.

Example grid_not_in_name : contains "grid" "gri_d" = false.
Proof. reflexivity. Qed.

Example last_two : last_chars 2 "grid2d_30" = "30".
Proof. reflexivity. Qed.

Example last_two_short : last_chars 2 "g" = "g".
Proof. reflexivity. Qed.

Example path_demo :
  path_ "facebook_caltech_demo" (Some "greedy") false
  = "../../result_logs/facebook_caltech_demo/facebook_caltech_demo_greedy.txt".
Proof. reflexivity. Qed.

Example path_grid :
  path_ "grid2d_20" (Some "greedy") true
  = "../../result_logs/grid2d/20/grid2d_20_greedy_benchmark.txt".
Proof. reflexivity. Qed.

Example path_dir : path_ "grid2d_20" None false = "../../result_logs/grid2d/20/".
Proof. reflexivity. Qed.

End PathsExamples.

Module GraphExamples.
Import Py Graphs.

Import Inputs.

Example two_parts_nodes : nodes two_parts = [1;2;3;4;5;6].
Proof. reflexivity. Qed.

Example two_parts_components :
  connected_components two_parts = Returns [[1;2]; [3;4;5]; [6]].
Proof. reflexivity. Qed.

Example two_parts_largest :
  option_map (fun n => nodes (graph n))
    (match read_max_connected_component (fun _ _ => two_parts) "f" 0 with
     | Returns n => Some n | _ => None end) = Some [3;4;5].
Proof. reflexivity. Qed.

(** A connected graph is kept whole. *)
Example connected_graph_kept :
  read_max_connected_component (fun _ _ => graph demo_network) "f" 0
  = Returns demo_network.
Proof. reflexivity. Qed.

(** Of two components of the same size, the first in node order wins. *)
Example tie_takes_first :
  option_map (fun n => nodes (graph n))
    (match read_max_connected_component
             (fun _ _ => from_edges [(1,2); (3,4)]) "f" 0 with
     | Returns n => Some n | _ => None end) = Some [1;2].
Proof. reflexivity. Qed.

(** Late edges can join what earlier edges left apart. *)
Example components_follow_edges :
  connected_components (from_edges [(1,2); (3,4); (5,6); (6,1); (4,4)])
  = Returns [[1;2;6;5]; [3;4]].
Proof. reflexivity. Qed.

End GraphExamples.

Module CoveringExamples.
Import Py Graphs Covering.

Example path6_diameter : diameter path6 = Returns 5.
Proof. reflexivity. Qed.

Example path6_size1 :
  greedy_coloring BelowLb path6 1 true [0;1;2;3;4;5] = Returns (Count 6).
Proof. reflexivity. Qed.

Example path6_size3 :
  greedy_coloring BelowLb path6 3 false [0;1;2;3;4;5]
  = Returns (Boxes [(0,0); (1,0); (2,0); (3,1); (4,1); (5,1)]).
Proof. reflexivity. Qed.

Example path6_size5 :
  greedy_coloring BelowLb path6 5 true [0;1;2;3;4;5] = Returns (Count 2).
Proof. reflexivity. Qed.

Example path6_size6 :
  greedy_coloring BelowLb path6 6 true [3;0;5;1;4;2] = Returns (Count 1).
Proof. reflexivity. Qed.

End CoveringExamples.

Module HarnessExamples.
Import Py Graphs Registry Harness Inputs.
Local Open Scope string_scope.
Local Open Scope Z_scope.

(** With no size in [lb], [lb[-1]] raises in merge's iteration and the
    second loop is never reached. *)
Example empty_lb_raises :
  boxing_all demo_clock "demo" [] [1; 2] (initial_world demo_network)
  = Raises IndexError.
Proof. reflexivity. Qed.

Example demo_run_boxing_calls :
  option_map (fun events =>
                flat_map (fun e => match e with
                                   | RunBoxing names offset _ sizes _ merge_alg _ =>
                                       [(names_alg names, offset, sizes, merge_alg)]
                                   | _ => []
                                   end) events)
    (events_of (boxing_all demo_clock "demo" [1; 2; 3] [1; 2]
                  (initial_world demo_network)))
  = Some [ ("cbb", 1, Sweep [1; 2; 3], false);
           ("greedy", 1, Sweep [1; 2; 3], false);
           ("merge", 5, Single 3, true);
           ("obca", 1, Sweep [1; 2; 3], false);
           ("fuzzy", 9, Sweep [1; 2; 3], false);
           ("mcwr_0.75", 1, Sweep [1; 2], false);
           ("mcwr_0.5", 1, Sweep [1; 2], false);
           ("mcwr_0.25", 1, Sweep [1; 2], false);
           ("memb", 1, Sweep [1; 2], false);
           ("random_sequential", 1, Sweep [1; 2], false);
           ("remcc", 1, Sweep [1; 2], false) ].
Proof. reflexivity. Qed.

End HarnessExamples.
